(** * MIDI drum set to keyboard converter: a shallow embedding

    The development follows [mididrumkeyboard.cpp].  Bytes ([unsigned char])
    are integers of [Z] in the range 0..255, with the wrap-around of the
    one counter that is incremented written out.  C strings are [string]s
    (the terminating NUL is implicit), [strcat] is [+:+] and [strcmp(..)==0]
    is [String.eqb].  The block of velocity registers is a [list Z].

    The main loop is a function from the bytes read from the MIDI device
    to the state of the loop and the list of what it sent out: the key
    events handed to [XSendEvent] and the lines written to [stderr].  The
    calls that open the display and the device, the quit signal and the
    failure of [read] are left out. *)

From Stdlib Require Import ZArith Lia Bool.
From stdpp Require Import base list strings.

Open Scope Z_scope.

(** ** Constants of the X11 headers

    [X11/keysymdef.h] and [X11/X.h] are system headers; the key symbols the
    table uses have these values there. *)
Module X11.
Definition ShiftMask : Z := 1.
Definition XK_BackSpace : Z := 0xff08.
Definition XK_Return : Z := 0xff0d.
Definition XK_space : Z := 0x20.
Definition XK_exclam : Z := 0x21.
Definition XK_comma : Z := 0x2c.
Definition XK_period : Z := 0x2e.
Definition XK_semicolon : Z := 0x3b.
Definition XK_A : Z := 0x41.
Definition XK_B : Z := 0x42.
Definition XK_C : Z := 0x43.
Definition XK_D : Z := 0x44.
Definition XK_E : Z := 0x45.
Definition XK_F : Z := 0x46.
Definition XK_G : Z := 0x47.
Definition XK_H : Z := 0x48.
Definition XK_I : Z := 0x49.
Definition XK_J : Z := 0x4a.
Definition XK_K : Z := 0x4b.
Definition XK_L : Z := 0x4c.
Definition XK_M : Z := 0x4d.
Definition XK_N : Z := 0x4e.
Definition XK_O : Z := 0x4f.
Definition XK_P : Z := 0x50.
Definition XK_Q : Z := 0x51.
Definition XK_R : Z := 0x52.
Definition XK_S : Z := 0x53.
Definition XK_T : Z := 0x54.
Definition XK_U : Z := 0x55.
Definition XK_V : Z := 0x56.
Definition XK_W : Z := 0x57.
Definition XK_X : Z := 0x58.
Definition XK_Y : Z := 0x59.
Definition XK_Z : Z := 0x5a.
Definition XK_a : Z := 0x61.
Definition XK_b : Z := 0x62.
Definition XK_c : Z := 0x63.
Definition XK_d : Z := 0x64.
Definition XK_e : Z := 0x65.
Definition XK_f : Z := 0x66.
Definition XK_g : Z := 0x67.
Definition XK_h : Z := 0x68.
Definition XK_i : Z := 0x69.
Definition XK_j : Z := 0x6a.
Definition XK_k : Z := 0x6b.
Definition XK_l : Z := 0x6c.
Definition XK_m : Z := 0x6d.
Definition XK_n : Z := 0x6e.
Definition XK_o : Z := 0x6f.
Definition XK_p : Z := 0x70.
Definition XK_q : Z := 0x71.
Definition XK_r : Z := 0x72.
Definition XK_s : Z := 0x73.
Definition XK_t : Z := 0x74.
Definition XK_u : Z := 0x75.
Definition XK_v : Z := 0x76.
Definition XK_w : Z := 0x77.
Definition XK_x : Z := 0x78.
Definition XK_y : Z := 0x79.
Definition XK_z : Z := 0x7a.
End X11.
Import X11.

(** ** MIDI constants and pad tuning *)

Definition MIDI_NOTE_ON : Z := 0x90.
Definition MIDI_TICK : Z := 0xf8.

Definition STROKE_THRESHOLD : Z := 0x05.
Definition HIT_THRESHOLD : Z := 0x0f.
Definition TICK_THRESHOLD : Z := 5.

(** ** Pad IDs *)

Definition BD : Z := 0x21.
Definition HHO : Z := 0x2e.
Definition HHC : Z := 0x2a.
Definition CRASH : Z := 0x31.
Definition SNARE : Z := 0x28.
Definition SIDETOM : Z := 0x30.
Definition RIDE : Z := 0x3b.
Definition FLOORTOM : Z := 0x2f.
Definition HATFOOT : Z := 0x2c.

(** ** The map of drum sequences to X keyboard codes *)

Record mapEntry : Type := MapEntry {
  content : string;
  keycode : Z;
  modifiers : Z
}.

(** The last two proper entries of the source leave [modifiers] out of the
    initialiser; C fills the member with 0. *)
Definition map : list mapEntry := [
  MapEntry "RIDE." XK_a 0;
  MapEntry "RIDE.RIDE." XK_A ShiftMask;
  MapEntry "BD,SNARE." XK_b 0;
  MapEntry "BD,SNARE.BD,SNARE." XK_B ShiftMask;
  MapEntry "CRASH,SNARE." XK_c 0;
  MapEntry "CRASH,SNARE.CRASH,SNARE." XK_C ShiftMask;
  MapEntry "CRASH,SIDETOM." XK_d 0;
  MapEntry "CRASH,SIDETOM.CRASH,SIDETOM." XK_D ShiftMask;
  MapEntry "SNARE." XK_e 0;
  MapEntry "SNARE.SNARE." XK_E ShiftMask;
  MapEntry "BD,HATFOOT." XK_f 0;
  MapEntry "BD,HATFOOT.BD,HATFOOT." XK_F ShiftMask;
  MapEntry "BD,FLOORTOM." XK_g 0;
  MapEntry "BD,FLOORTOM.BD,FLOORTOM." XK_G ShiftMask;
  MapEntry "SNARE,SIDETOM." XK_h 0;
  MapEntry "SNARE,SIDETOM.SNARE,SIDETOM." XK_H ShiftMask;
  MapEntry "SIDETOM." XK_i 0;
  MapEntry "SIDETOM.SIDETOM." XK_I ShiftMask;
  MapEntry "FLOORTOM,HATFOOT." XK_j 0;
  MapEntry "FLOORTOM,HATFOOT.FLOORTOM,HATFOOT." XK_J ShiftMask;
  MapEntry "HH,FLOORTOM." XK_k 0;
  MapEntry "HH,FLOORTOM.HH,FLOORTOM." XK_K ShiftMask;
  MapEntry "BD,SIDETOM." XK_l 0;
  MapEntry "BD,SIDETOM.BD,SIDETOM." XK_L ShiftMask;
  MapEntry "HH,SNARE." XK_m 0;
  MapEntry "HH,SNARE.HH,SNARE." XK_M ShiftMask;
  MapEntry "FLOORTOM." XK_n 0;
  MapEntry "FLOORTOM.FLOORTOM." XK_N ShiftMask;
  MapEntry "CRASH." XK_o 0;
  MapEntry "CRASH.CRASH." XK_O ShiftMask;
  MapEntry "SNARE,FLOORTOM." XK_p 0;
  MapEntry "SNARE,FLOORTOM.SNARE,FLOORTOM." XK_P ShiftMask;
  MapEntry "BD,SNARE,HATFOOT." XK_q 0;
  MapEntry "BD,SNARE,HATFOOT.BD,SNARE,HATFOOT." XK_Q ShiftMask;
  MapEntry "HATFOOT." XK_r 0;
  MapEntry "HATFOOT.HATFOOT." XK_R ShiftMask;
  MapEntry "CRASH,RIDE." XK_s 0;
  MapEntry "CRASH,RIDE.CRASH,RIDE." XK_S ShiftMask;
  MapEntry "HH." XK_t 0;
  MapEntry "HH.HH." XK_T ShiftMask;
  MapEntry "HH,CRASH." XK_u 0;
  MapEntry "HH,CRASH.HH,CRASH." XK_U ShiftMask;
  MapEntry "BD,CRASH,RIDE." XK_v 0;
  MapEntry "BD,CRASH,RIDE.BD,CRASH,RIDE." XK_V ShiftMask;
  MapEntry "BD,HH,RIDE." XK_w 0;
  MapEntry "BD,HH,RIDE.BD,HH,RIDE." XK_W ShiftMask;
  MapEntry "RIDE,HATFOOT." XK_x 0;
  MapEntry "RIDE,HATFOOT.RIDE,HATFOOT." XK_X ShiftMask;
  MapEntry "BD,SNARE,FLOORTOM." XK_y 0;
  MapEntry "BD,SNARE,FLOORTOM.BD,SNARE,FLOORTOM." XK_Y ShiftMask;
  MapEntry "BD,SNARE,SIDETOM." XK_z 0;
  MapEntry "BD,SNARE,SIDETOM.BD,SNARE,SIDETOM." XK_Z ShiftMask;
  MapEntry "BD." XK_space 0;
  MapEntry "BD,CRASH." XK_BackSpace 0;
  MapEntry "SNARE,RIDE." XK_period 0;
  MapEntry "HH,RIDE." XK_comma 0;
  MapEntry "BD,RIDE." XK_exclam ShiftMask;
  MapEntry "SIDETOM,RIDE." XK_semicolon 0;
  MapEntry "BD,SNARE,RIDE." XK_Return 0;
  MapEntry "" 0 0 (* Terminator *)
].

(** ** The enumeration of drums by pad ID, and the drum names *)

Definition drums : list Z :=
  [BD; HHO; HHC; CRASH; SNARE; SIDETOM; RIDE; FLOORTOM; HATFOOT].

Definition drumNames : list string :=
  ["BD"; "HH"; "HH"; "CRASH"; "SNARE"; "SIDETOM"; "RIDE"; "FLOORTOM"; "HATFOOT"].

(** [sizeof(drums)]: nine one-byte elements. *)
Definition sizeof_drums : nat := 9.

(** ** What the program does to the outside

    [XSendEvent] delivers a key event built by [createKeyEvent] (a press or
    a release of a key symbol under a modifier state) to the focus window;
    [fprintf(stderr, ..)] writes a diagnostic.  [Chord] is not an output of
    the program: it records that the tick handler appended a chord to the
    sentence, with the pads that passed the test of [handleStroke] and the
    text that was appended. *)
Inductive event : Type :=
| XKey (press : bool) (keysym : Z) (mask : Z)
| Stderr (line : string)
| Chord (pads : list nat) (text : string).

(** ** handleSentence

    The scan visits [map[i]] while [strlen(map[i].content)] is not 0 and
    stops at the first entry that [strcmp] finds equal to the sentence. *)
Fixpoint handleSentence_scan (s : string) (entries : list mapEntry)
  : option mapEntry :=
  match entries with
  | [] => None
  | e :: rest =>
      if (String.length (content e) =? 0)%nat then None
      else if String.eqb s (content e) then Some e
      else handleSentence_scan s rest
  end.

Definition handleSentence (s : string) : bool * list event :=
  match handleSentence_scan s map with
  | Some e =>
      (true, [XKey true (keycode e) (modifiers e);
              XKey false (keycode e) (modifiers e)])
  | None => (false, [])
  end.

(** ** The velocity registers

    [velocities] points to a block of [sizeof(drums)] bytes.  [reg] reads
    [velocities[i]]; every index the program reads with is below nine. *)
Definition reg (velocities : list Z) (i : nat) : Z :=
  default 0 (velocities !! i).

(** [memset(velocities, 0, n)]. *)
Definition memset0 (velocities : list Z) (n : nat) : list Z :=
  replicate n 0 ++ drop n velocities.

(** ** handleStroke

    The loop keeps [strokeBuf] and the flag [empty]; [hit] is not in the
    source: it collects the indices that pass the test of the loop body. *)
Record strokeAcc : Type := StrokeAcc {
  strokeBuf : string;
  empty : bool;
  hit : list nat
}.

Definition handleStroke_body (velocities : list Z) (acc : strokeAcc) (i : nat)
  : strokeAcc :=
  if STROKE_THRESHOLD <=? reg velocities i then
    {| strokeBuf :=
         (if empty acc then strokeBuf acc else strokeBuf acc +:+ ",")
         +:+ default "" (drumNames !! i);
       empty := false;
       hit := hit acc ++ [i] |}
  else acc.

Definition handleStroke_loop (velocities : list Z) (s : nat) : strokeAcc :=
  foldl (handleStroke_body velocities) (StrokeAcc "" true []) (seq 0 s).

Definition handleStroke (velocities : list Z) (s : nat) : string :=
  strokeBuf (handleStroke_loop velocities s) +:+ ".".

(** ** The state of the main loop *)

Record state : Type := State {
  velocities : list Z;
  buf : string;
  ticksSinceStroke : Z
}.

(** [buf[0] == 0]. *)
Definition buf_empty (s : string) : bool :=
  match s with
  | EmptyString => true
  | String _ _ => false
  end.

Definition newline : string := String (Ascii.ascii_of_nat 10) EmptyString.

(** ** The tick handler, in the three steps of the source *)

(** The first loop over the registers. *)
Definition needsHandling (velocities : list Z) : bool :=
  foldl
    (fun needs i =>
       if (reg velocities i / 2 <? STROKE_THRESHOLD)
          && (STROKE_THRESHOLD <=? reg velocities i)
       then true else needs)
    false (seq 0 sizeof_drums).

(** [if (needsHandling) { .. }]. *)
Definition stroke_phase (st : state) : state * list event :=
  if needsHandling (velocities st) then
    let t := handleStroke (velocities st) sizeof_drums in
    ({| velocities := memset0 (velocities st) sizeof_drums;
        buf := buf st +:+ t;
        ticksSinceStroke :=
          if buf_empty (buf st) then 0 else ticksSinceStroke st |},
     [Chord (hit (handleStroke_loop (velocities st) sizeof_drums)) t])
  else (st, []).

(** The second loop: [velocities[i] /= 2]. *)
Definition halve (velocities : list Z) : list Z :=
  foldl (fun vs i => <[i := reg vs i / 2]> vs) velocities (seq 0 sizeof_drums).

Definition decay_phase (st : state) : state :=
  {| velocities := halve (velocities st);
     buf := buf st;
     ticksSinceStroke := ticksSinceStroke st |}.

(** [if (ticksSinceStroke++ > TICK_THRESHOLD && buf[0] != 0) { .. }]: the
    counter is an [unsigned char]; it is incremented whatever the test
    gives, and the test reads its value from before the increment. *)
Definition flush_phase (st : state) : state * list event :=
  let old := ticksSinceStroke st in
  let ticks := (old + 1) mod 256 in
  if (TICK_THRESHOLD <? old) && negb (buf_empty (buf st)) then
    let '(found, sent) := handleSentence (buf st) in
    ({| velocities := memset0 (velocities st) sizeof_drums;
        buf := "";
        ticksSinceStroke := 0 |},
     sent ++
     (if found then []
      else [Stderr ("UNKNOWN SEQUENCE: " +:+ buf st +:+ newline)]))
  else
    ({| velocities := velocities st;
        buf := buf st;
        ticksSinceStroke := ticks |}, []).

Definition tick (st : state) : state * list event :=
  let '(st1, chord) := stroke_phase st in
  let '(st3, flushed) := flush_phase (decay_phase st1) in
  (st3, chord ++ flushed).

(** ** Results of code that can store outside the register block *)

Inductive result (A : Type) : Type :=
| Ok (a : A)
| OutOfBounds (offset : nat).
Arguments Ok {A} a.
Arguments OutOfBounds {A} offset.

#[global] Instance result_bind : MBind result :=
  fun A B (k : A -> result B) (r : result A) =>
    match r with
    | Ok a => k a
    | OutOfBounds offset => OutOfBounds offset
    end.

(** ** strchr

    [strchr s c] on the C string that starts with the bytes of [s] and
    whose terminating NUL is the first 0 among them or, when there is none,
    the byte after them.  The result is the offset of the first byte equal
    to [c]; as in C, the terminator counts as part of the string, so
    looking for 0 finds it. *)
Fixpoint strchr (s : list Z) (c : Z) : option nat :=
  match s with
  | [] => if c =? 0 then Some 0%nat else None
  | b :: s' =>
      if b =? c then Some 0%nat
      else if b =? 0 then None
      else S <$> strchr s' c
  end.

Section Decoder.

(** [drums] is an array of nine bytes with no terminating NUL, and the
    source hands it to [strchr]; the scan runs on into what the linker
    placed after the array.  [rodata] is that: the bytes between the end
    of [drums] and the first NUL byte that follows. *)
Variable rodata : list Z.

(** The note-on branch, after [key] and [velocity] have been read. *)
Definition noteOn (key velocity : Z) (st : state) : result state :=
  if HIT_THRESHOLD <=? velocity then
    match strchr (drums ++ rodata) key with
    | Some i =>
        if (i <? sizeof_drums)%nat then
          Ok {| velocities := <[i := velocity]> (velocities st);
                buf := buf st;
                ticksSinceStroke := ticksSinceStroke st |}
        else OutOfBounds i
    | None => Ok st
    end
  else Ok st.

(** The decode loop on a recorded input: a tick byte runs the tick
    handler; a byte with high nibble 9 takes the next two bytes as key
    and velocity; any other byte is skipped.  The loop of the source ends
    on the quit flag only; the model stops where the recording ends. *)
Fixpoint decode (input : list Z) (st : state) : result (state * list event) :=
  match input with
  | [] => Ok (st, [])
  | ch :: rest =>
      let '(st1, out1) := if ch =? MIDI_TICK then tick st else (st, []) in
      if Z.land ch 0xf0 =? MIDI_NOTE_ON then
        match rest with
        | key :: velocity :: rest' =>
            st2 ← noteOn key velocity st1;
            r ← decode rest' st2;
            Ok (r.1, out1 ++ r.2)
        | _ => Ok (st1, out1)
        end
      else
        r ← decode rest st1;
        Ok (r.1, out1 ++ r.2)
  end.

(** [main] up to the loop: [buf[0] = 0], [ticksSinceStroke = 0], and
    [velocities = malloc(sizeof(drums))], which the source does not
    initialise.  [heap] is what the allocator left in the nine bytes. *)
Definition main_init (heap : list Z) : state :=
  {| velocities := heap; buf := ""; ticksSinceStroke := 0 |}.

Definition main (heap : list Z) (input : list Z)
  : result (state * list event) :=
  decode input (main_init heap).

End Decoder.

(** [n] tick bytes in a row. *)
Fixpoint ticks (n : nat) (st : state) : state * list event :=
  match n with
  | O => (st, [])
  | S n' =>
      let '(st1, out1) := tick st in
      let '(st2, out2) := ticks n' st1 in
      (st2, out1 ++ out2)
  end.

(** The chords among the events of a run. *)
Definition chords (out : list event) : list (list nat * string) :=
  omap (fun e => match e with Chord pads text => Some (pads, text) | _ => None end)
       out.

(** ** Notions the properties are stated with *)

(** The entries of the table in front of the terminator, and the
    terminator. *)
Definition patterns : list mapEntry := take 59 map.

Definition terminator : mapEntry := MapEntry "" 0 0.

(** The pads whose register is at or above the stroke threshold, in the
    order of the enumeration [drums]. *)
Definition chordPads (velocities : list Z) : list nat :=
  filter (fun i => STROKE_THRESHOLD <= reg velocities i) (seq 0 sizeof_drums).

Definition drumName (i : nat) : string := default "" (drumNames !! i).

(** A chord as text: the names joined by commas, then a period. *)
Definition chordText (pads : list nat) : string :=
  String.concat "," (drumName <$> pads) +:+ ".".

(** The register block is the nine bytes that were allocated. *)
Definition wf (st : state) : Prop := length (velocities st) = sizeof_drums.

Definition zeros : list Z := replicate sizeof_drums 0.

(** Register [i] is at or above the stroke threshold and its half is
    below it. *)
Definition decays_out (vs : list Z) (i : nat) : Prop :=
  STROKE_THRESHOLD <= reg vs i /\ reg vs i / 2 < STROKE_THRESHOLD.

(** No register holds a value between 1 and the stroke threshold: each
    one is at rest or still rings. *)
Definition clean (vs : list Z) : Prop :=
  forall i, reg vs i = 0 \/ STROKE_THRESHOLD <= reg vs i.

(** The engine is idle: the sentence is empty and the nine registers are
    at rest. *)
Definition idle (st : state) : Prop :=
  velocities st = zeros /\ buf st = "".

(** What the loop keeps true of its state: nine registers, a counter
    that is a byte, and a sentence that is either empty or not older than
    six ticks and not longer than 52 characters for each of them. *)
Definition bounded (st : state) : Prop :=
  wf st
  /\ 0 <= ticksSinceStroke st < 256
  /\ (buf st = ""
      \/ (1 <= ticksSinceStroke st <= 6
          /\ Z.of_nat (String.length (buf st)) <= 52 * ticksSinceStroke st)).

(** What a run sent out: its events without the chords. *)
Definition sent (out : list event) : list event :=
  omap (fun e => match e with Chord _ _ => None | _ => Some e end) out.

(** The events of a run read against the sentence: a chord extends the
    sentence by its text; a key press and release are the entry the table
    holds for the sentence, and empty it; a diagnostic names a sentence
    that is not empty and has no entry, and empties it.
    [explains s out s'] reads [out] from the sentence [s] and ends with
    the sentence [s']. *)
Inductive explains : string -> list event -> string -> Prop :=
| explains_nil (s : string) :
    explains s [] s
| explains_chord (s : string) (pads : list nat) (rest : list event) (s' : string) :
    pads <> [] ->
    explains (s +:+ chordText pads) rest s' ->
    explains s (Chord pads (chordText pads) :: rest) s'
| explains_key (s : string) (e : mapEntry) (rest : list event) (s' : string) :
    handleSentence_scan s map = Some e ->
    explains "" rest s' ->
    explains s (XKey true (keycode e) (modifiers e)
                :: XKey false (keycode e) (modifiers e) :: rest) s'
| explains_unknown (s : string) (rest : list event) (s' : string) :
    s <> "" ->
    handleSentence_scan s map = None ->
    explains "" rest s' ->
    explains s (Stderr ("UNKNOWN SEQUENCE: " +:+ s +:+ newline) :: rest) s'.

(** An input that plays a sentence: the names of each chord (the text
    between commas, character 44, up to a period, character 46) are struck
    with force 16 on the first pad of that name, two ticks let the chord
    decay out, and seven more ticks let the sentence flush. *)
Fixpoint parse_sentence (s : string) (name : string) (chord : list string)
  : list (list string) :=
  match s with
  | EmptyString => []
  | String c s' =>
      if Ascii.eqb c (Ascii.ascii_of_nat 44) then
        parse_sentence s' "" (chord ++ [name])
      else if Ascii.eqb c (Ascii.ascii_of_nat 46) then
        (chord ++ [name]) :: parse_sentence s' "" []
      else parse_sentence s' (name +:+ String c EmptyString) chord
  end.

Definition pad_of_name (name : string) : Z :=
  match list_find (fun n => n = name) drumNames with
  | Some (i, _) => default 0 (drums !! i)
  | None => 0
  end.

Definition play_chord (names : list string) : list Z :=
  concat ((fun n => [MIDI_NOTE_ON; pad_of_name n; 16]) <$> names)
  ++ [MIDI_TICK; MIDI_TICK].

Definition play (s : string) : list Z :=
  concat (play_chord <$> parse_sentence s "" []) ++ replicate 7 MIDI_TICK.

(** The input as messages: what the decode loop takes the bytes for.  A
    note-on message is a status byte with high nibble 9 (the low nibble is
    the channel), a key and a velocity; any byte that is neither a tick nor
    such a status stands for itself. *)
Inductive message : Type :=
| Tick
| NoteOn (channel key velocity : Z)
| Other (byte : Z).

Definition encode (m : message) : list Z :=
  match m with
  | Tick => [MIDI_TICK]
  | NoteOn channel key velocity => [MIDI_NOTE_ON + channel; key; velocity]
  | Other byte => [byte]
  end.

Definition valid (m : message) : Prop :=
  match m with
  | Tick => True
  | NoteOn channel _ _ => 0 <= channel < 16
  | Other byte => byte <> MIDI_TICK /\ Z.land byte 0xf0 <> MIDI_NOTE_ON
  end.

(** A note-on message that the loop drops or stores in a register. *)
Definition drops_or_hits_a_pad (m : message) : Prop :=
  match m with
  | NoteOn _ key velocity => velocity < HIT_THRESHOLD \/ key ∈ drums
  | _ => True
  end.

Section Messages.

Variable rodata : list Z.

Definition step (m : message) (st : state) : result (state * list event) :=
  match m with
  | Tick => Ok (tick st)
  | NoteOn _ key velocity => st' ← noteOn rodata key velocity st; Ok (st', [])
  | Other _ => Ok (st, [])
  end.

Fixpoint steps (ms : list message) (st : state) : result (state * list event) :=
  match ms with
  | [] => Ok (st, [])
  | m :: ms' =>
      r1 ← step m st;
      r2 ← steps ms' r1.1;
      Ok (r2.1, r1.2 ++ r2.2)
  end.

End Messages.

(** ** The loop up to a store outside the registers

    [decode] gives neither state nor output when a note-on message stores
    outside the nine registers.  [decode_prefix] is the same loop and
    returns where it stops: the state and the output at the end of the
    input, or in front of the first such store, with its offset. *)
Section Prefix.

Variable rodata : list Z.

Fixpoint decode_prefix (input : list Z) (st : state)
  : state * list event * option nat :=
  match input with
  | [] => (st, [], None)
  | ch :: rest =>
      let '(st1, out1) := if ch =? MIDI_TICK then tick st else (st, []) in
      if Z.land ch 0xf0 =? MIDI_NOTE_ON then
        match rest with
        | key :: velocity :: rest' =>
            match noteOn rodata key velocity st1 with
            | Ok st2 =>
                let '(st3, out3, fault) := decode_prefix rest' st2 in
                (st3, out1 ++ out3, fault)
            | OutOfBounds offset => (st1, out1, Some offset)
            end
        | _ => (st1, out1, None)
        end
      else
        let '(st3, out3, fault) := decode_prefix rest st1 in
        (st3, out1 ++ out3, fault)
  end.

(** What [decode] returns where [decode_prefix] stops. *)
Definition outcome (r : state * list event * option nat)
  : result (state * list event) :=
  match r.2 with
  | None => Ok r.1
  | Some offset => OutOfBounds offset
  end.

End Prefix.

(** * Properties *)

(** ** Strings *)

Lemma append_cons (c : Ascii.ascii) (s1 s2 : string) :
  String c s1 +:+ s2 = String c (s1 +:+ s2).
Proof. reflexivity. Qed.

Lemma append_nil_r (s : string) : s +:+ "" = s.
Proof. induction s as [|c s IH]; [done | by rewrite append_cons, IH]. Qed.

Lemma append_assoc (s1 s2 s3 : string) : (s1 +:+ s2) +:+ s3 = s1 +:+ s2 +:+ s3.
Proof. induction s1 as [|c s1 IH]; [done | by rewrite !append_cons, IH]. Qed.

Lemma append_empty_inv (s1 s2 : string) : s1 +:+ s2 = "" -> s1 = "" /\ s2 = "".
Proof. destruct s1; [done | discriminate]. Qed.

Lemma buf_empty_spec (s : string) : buf_empty s = true <-> s = "".
Proof. destruct s; simpl; split; congruence. Qed.

Lemma buf_empty_false (s : string) : buf_empty s = false <-> s <> "".
Proof. destruct s; simpl; split; congruence. Qed.

Lemma strlen_zero (s : string) : (String.length s =? 0)%nat = buf_empty s.
Proof. by destruct s. Qed.

(** ** The pattern table *)

Lemma map_patterns : map = patterns ++ [terminator].
Proof. reflexivity. Qed.

Lemma patterns_nonempty : Forall (fun e => content e <> "") patterns.
Proof. unfold patterns, map; simpl; repeat constructor; discriminate. Qed.

(** On any table made of entries with non-empty patterns, then an entry
    with the empty pattern, then anything, the scan is the search for the
    first entry whose pattern is the sentence, and it does not look past
    the empty pattern. *)
Lemma handleSentence_scan_find (s : string) (entries rest : list mapEntry)
    (stop : mapEntry) :
  Forall (fun e => content e <> "") entries ->
  content stop = "" ->
  handleSentence_scan s (entries ++ stop :: rest)
  = snd <$> list_find (fun e => s = content e) entries.
Proof.
  intros Hne Hstop. induction Hne as [|e entries He _ IH]; simpl.
  - by rewrite Hstop.
  - rewrite strlen_zero. apply buf_empty_false in He. rewrite He.
    destruct (String.eqb_spec s (content e)) as [Heq|Hneq].
    + by rewrite decide_True.
    + rewrite decide_False by done. rewrite IH.
      by destruct (list_find _ entries) as [[i x]|].
Qed.

Lemma handleSentence_scan_map (s : string) :
  handleSentence_scan s map = snd <$> list_find (fun e => s = content e) patterns.
Proof.
  rewrite map_patterns.
  apply handleSentence_scan_find; [apply patterns_nonempty | done].
Qed.

Lemma patterns_lookup (i : nat) (e : mapEntry) :
  patterns !! i = Some e <-> (i < 59)%nat /\ map !! i = Some e.
Proof.
  unfold patterns. rewrite lookup_take_Some. tauto.
Qed.

(** The scan of [handleSentence] on the table: it returns the first entry
    in front of the terminator whose pattern is exactly [s], and none when
    there is no such entry; it ends at the entry with the empty pattern,
    the last one of the table. *)
Lemma handleSentence_scan_first_match (s : string) :
  (forall e, handleSentence_scan s map = Some e <->
     exists i, (i < 59)%nat /\ map !! i = Some e /\ content e = s /\
       forall j e', (j < i)%nat -> map !! j = Some e' -> content e' <> s)
  /\ (handleSentence_scan s map = None <->
        forall i e, (i < 59)%nat -> map !! i = Some e -> content e <> s)
  /\ (map !! 59%nat = Some terminator /\ length map = 60%nat /\
      forall rest, handleSentence_scan s (map ++ rest) = handleSentence_scan s map)
  /\ handleSentence_scan "RIDE." map = Some (MapEntry "RIDE." XK_a 0)
  /\ handleSentence_scan "RIDE.RIDE." map = Some (MapEntry "RIDE.RIDE." XK_A ShiftMask).
Proof.
  split; [|split; [|split; [|split]]].
  - intros e. rewrite handleSentence_scan_map. split.
    + destruct (list_find _ patterns) as [[i x]|] eqn:Hfind; [|discriminate].
      simpl. intros [= ->]. apply list_find_Some in Hfind as (Hi & Hs & Hfirst).
      apply patterns_lookup in Hi as [Hlt Hi].
      exists i. repeat split; [done..|].
      intros j e' Hj He' Heq. apply (Hfirst j e'); [|done|done].
      apply patterns_lookup. split; [lia | done].
    + intros (i & Hlt & Hi & Hs & Hfirst).
      assert (list_find (fun e => s = content e) patterns = Some (i, e)) as ->; [|done].
      apply list_find_Some. split; [by apply patterns_lookup|].
      split; [done|]. intros j y Hj Hji Heq.
      apply patterns_lookup in Hj as [Hj59 Hj]. by apply (Hfirst j y).
  - rewrite handleSentence_scan_map. split.
    + destruct (list_find _ patterns) as [[i x]|] eqn:Hfind; [discriminate|].
      intros _ i e Hlt Hi Heq. apply list_find_None in Hfind.
      rewrite Forall_forall in Hfind. apply (Hfind e); [|done].
      apply list_elem_of_lookup. exists i. by apply patterns_lookup.
    + intros Hnone.
      assert (list_find (fun e => s = content e) patterns = None) as ->; [|done].
      apply list_find_None, Forall_forall. intros e He Heq.
      apply list_elem_of_lookup in He as [i Hi].
      apply patterns_lookup in Hi as [Hlt Hi]. by apply (Hnone i e).
  - split; [done|]. split; [done|]. intros rest.
    rewrite map_patterns, <- app_assoc.
    change ([terminator] ++ rest) with (terminator :: rest).
    rewrite !handleSentence_scan_find; try done; apply patterns_nonempty.
  - reflexivity.
  - reflexivity.
Qed.

(** C4: [handleSentence] on a sentence [s] finds the first entry in front
    of the terminator whose pattern is exactly [s], returns true and sends
    the press and the release of the key of that entry under its
    modifiers; when no entry has the pattern [s] it returns false and
    sends nothing.  ["RIDE."] sends the key a, ["RIDE.RIDE."] the key A
    with shift: neither pattern matches the other sentence.  The scan ends
    at the entry with the empty pattern, which is the last one of the
    table and is never a match, not even for the empty sentence. *)
Theorem C4_lookup_is_exact_first_match (s : string) :
  (forall i e,
     (i < 59)%nat -> map !! i = Some e -> content e = s ->
     (forall j e', (j < i)%nat -> map !! j = Some e' -> content e' <> s) ->
     handleSentence s
     = (true, [XKey true (keycode e) (modifiers e);
               XKey false (keycode e) (modifiers e)]))
  /\ ((forall i e, (i < 59)%nat -> map !! i = Some e -> content e <> s)
      <-> handleSentence s = (false, []))
  /\ (fst (handleSentence s) = true
      <-> exists i e, (i < 59)%nat /\ map !! i = Some e /\ content e = s)
  /\ (handleSentence s = (false, [])
      \/ exists i e,
           (i < 59)%nat /\ map !! i = Some e /\ content e = s
           /\ (forall j e', (j < i)%nat -> map !! j = Some e' -> content e' <> s)
           /\ handleSentence s
              = (true, [XKey true (keycode e) (modifiers e);
                        XKey false (keycode e) (modifiers e)]))
  /\ handleSentence "RIDE." = (true, [XKey true XK_a 0; XKey false XK_a 0])
  /\ handleSentence "RIDE.RIDE."
     = (true, [XKey true XK_A ShiftMask; XKey false XK_A ShiftMask])
  /\ handleSentence "" = (false, [])
  /\ (forall e, handleSentence_scan s map = Some e <->
       exists i, (i < 59)%nat /\ map !! i = Some e /\ content e = s /\
         forall j e', (j < i)%nat -> map !! j = Some e' -> content e' <> s)
  /\ (handleSentence_scan s map = None <->
        forall i e, (i < 59)%nat -> map !! i = Some e -> content e <> s)
  /\ (map !! 59%nat = Some terminator /\ length map = 60%nat /\
      forall rest, handleSentence_scan s (map ++ rest) = handleSentence_scan s map)
  /\ handleSentence_scan "RIDE." map = Some (MapEntry "RIDE." XK_a 0)
  /\ handleSentence_scan "RIDE.RIDE." map = Some (MapEntry "RIDE.RIDE." XK_A ShiftMask).
Proof.
  destruct (handleSentence_scan_first_match s)
    as (Hsome & Hnone & Hend & Hride & Hride2).
  assert (forall i e,
            (i < 59)%nat -> map !! i = Some e -> content e = s ->
            (forall j e', (j < i)%nat -> map !! j = Some e' -> content e' <> s) ->
            handleSentence s
            = (true, [XKey true (keycode e) (modifiers e);
                      XKey false (keycode e) (modifiers e)])) as Hfound.
  { intros i e Hi He Hs Hfirst. unfold handleSentence.
    assert (handleSentence_scan s map = Some e) as ->; [|done].
    apply Hsome. by exists i. }
  assert ((forall i e, (i < 59)%nat -> map !! i = Some e -> content e <> s)
          <-> handleSentence s = (false, [])) as Hmissing.
  { rewrite <- Hnone. unfold handleSentence.
    destruct (handleSentence_scan s map); split; congruence. }
  split; [exact Hfound|]. split; [exact Hmissing|].
  split; [|split; [|split; [|split; [|split]]]].
  - unfold handleSentence.
    destruct (handleSentence_scan s map) as [e|]; cbn [fst].
    + split; [intros _|done].
      destruct (proj1 (Hsome e) eq_refl) as (i & Hi & He & Hs & _).
      by exists i, e.
    + split; [done|]. intros (i & e & Hi & He & Hs).
      exfalso. by apply (proj1 Hnone eq_refl i e).
  - destruct (handleSentence_scan s map) as [e|].
    + right. destruct (proj1 (Hsome e) eq_refl) as (i & Hi & He & Hs & Hfirst).
      exists i, e. repeat split; try done. by apply (Hfound i e).
    + left. apply Hmissing. by apply Hnone.
  - reflexivity.
  - reflexivity.
  - reflexivity.
  - split; [exact Hsome|]. split; [exact Hnone|]. split; [exact Hend|].
    split; [exact Hride | exact Hride2].
Qed.

(** ** The register block *)

(** A block of nine registers, register by register. *)
Ltac nine vs H :=
  do 9 (destruct vs as [|? vs]; [discriminate H|]);
  destruct vs; [clear H | discriminate H].

Lemma halve_spec (vs : list Z) :
  length vs = sizeof_drums -> halve vs = (fun r => r / 2) <$> vs.
Proof. intros H. nine vs H. reflexivity. Qed.

Lemma halve_length (vs : list Z) :
  length vs = sizeof_drums -> length (halve vs) = sizeof_drums.
Proof. intros H. rewrite halve_spec by done. by rewrite length_fmap. Qed.

Lemma reg_halve (vs : list Z) (i : nat) :
  length vs = sizeof_drums -> reg (halve vs) i = reg vs i / 2.
Proof.
  intros H. rewrite halve_spec by done. unfold reg.
  rewrite list_lookup_fmap. by destruct (vs !! i).
Qed.

Lemma memset0_spec (vs : list Z) :
  length vs = sizeof_drums -> memset0 vs sizeof_drums = zeros.
Proof. intros H. nine vs H. reflexivity. Qed.

Lemma reg_zeros (i : nat) : reg zeros i = 0.
Proof.
  unfold reg, zeros. destruct (replicate sizeof_drums 0 !! i) as [r|] eqn:H; [|done].
  by apply lookup_replicate in H as [-> _].
Qed.

Lemma halve_zeros : halve zeros = zeros.
Proof. reflexivity. Qed.

Lemma reg_ge (vs : list Z) (i : nat) :
  (length vs <= i)%nat -> reg vs i = 0.
Proof. intros H. unfold reg. by rewrite lookup_ge_None_2 by lia. Qed.

(** ** The first loop of the tick handler *)

Lemma needsHandling_fold (vs : list Z) (l : list nat) (needs : bool) :
  foldl
    (fun needs i =>
       if (reg vs i / 2 <? STROKE_THRESHOLD) && (STROKE_THRESHOLD <=? reg vs i)
       then true else needs) needs l = true
  <-> needs = true \/ exists i, i ∈ l /\ decays_out vs i.
Proof.
  revert needs. induction l as [|i l IH]; intros needs; simpl.
  - split; [by left | intros [H|(i & Hi & _)]; [done | by apply elem_of_nil in Hi]].
  - rewrite IH. setoid_rewrite elem_of_cons.
    assert ((reg vs i / 2 <? STROKE_THRESHOLD) && (STROKE_THRESHOLD <=? reg vs i) = true
            <-> decays_out vs i) as Hc.
    { unfold decays_out. rewrite andb_true_iff, Z.ltb_lt, Z.leb_le. tauto. }
    destruct ((reg vs i / 2 <? STROKE_THRESHOLD) && (STROKE_THRESHOLD <=? reg vs i)).
    + split; intros _; [|by left].
      right. exists i. split; [by left | by apply Hc].
    + split.
      * intros [H|(j & Hj & Hd)]; [by left|].
        right. exists j. split; [by right | done].
      * intros [H|(j & [->|Hj] & Hd)]; [by left | |].
        -- apply Hc in Hd. discriminate.
        -- right. by exists j.
Qed.

Lemma needsHandling_spec (vs : list Z) :
  needsHandling vs = true <->
  exists i, (i < sizeof_drums)%nat /\ decays_out vs i.
Proof.
  unfold needsHandling. rewrite needsHandling_fold. split.
  - intros [H|(i & Hi & Hd)]; [done|]. exists i. split; [|done].
    apply elem_of_seq in Hi. lia.
  - intros (i & Hi & Hd). right. exists i. split; [|done].
    apply elem_of_seq. lia.
Qed.

(** ** handleStroke *)

Lemma concat_cons (sep x : string) (xs : list string) :
  String.concat sep (x :: xs)
  = match xs with [] => x | _ :: _ => x +:+ sep +:+ String.concat sep xs end.
Proof. by destruct xs. Qed.

(** The loop of [handleStroke] from any accumulator and over any list of
    indices: the indices that pass the test are appended to [hit], their
    names to [strokeBuf], with a comma in front of each name but the first
    of the buffer. *)
Lemma handleStroke_fold (vs : list Z) (l : list nat) (acc : strokeAcc) :
  foldl (handleStroke_body vs) acc l
  = let hits := filter (fun i => STROKE_THRESHOLD <= reg vs i) l in
    {| strokeBuf :=
         match hits with
         | [] => strokeBuf acc
         | _ :: _ =>
             (if empty acc then strokeBuf acc else strokeBuf acc +:+ ",")
             +:+ String.concat "," (drumName <$> hits)
         end;
       empty := match hits with [] => empty acc | _ :: _ => false end;
       hit := hit acc ++ hits |}.
Proof.
  revert acc. induction l as [|i l IH]; intros acc; simpl.
  - rewrite app_nil_r. by destruct acc.
  - rewrite IH, filter_cons. unfold handleStroke_body.
    destruct (Z.leb_spec STROKE_THRESHOLD (reg vs i)) as [Hi|Hi].
    + rewrite decide_True by done. simpl.
      rewrite <- app_assoc. simpl. fold (drumName i).
      destruct (filter _ l) as [|h t]; [done|].
      f_equal. simpl. by rewrite !append_assoc.
    + rewrite decide_False by lia. done.
Qed.

Ltac unfold_handleStroke vs :=
  unfold handleStroke, handleStroke_loop; rewrite handleStroke_fold;
  cbv zeta; cbn [strokeBuf empty hit]; fold (chordPads vs).

Lemma handleStroke_hit (vs : list Z) :
  hit (handleStroke_loop vs sizeof_drums) = chordPads vs.
Proof. by unfold_handleStroke vs. Qed.

Lemma handleStroke_empty (vs : list Z) :
  empty (handleStroke_loop vs sizeof_drums) = true <-> chordPads vs = [].
Proof. unfold_handleStroke vs. by destruct (chordPads vs). Qed.

Lemma handleStroke_spec (vs : list Z) :
  handleStroke vs sizeof_drums = chordText (chordPads vs).
Proof. unfold_handleStroke vs. unfold chordText. by destruct (chordPads vs). Qed.

Lemma elem_of_chordPads (vs : list Z) (i : nat) :
  i ∈ chordPads vs <-> (i < sizeof_drums)%nat /\ STROKE_THRESHOLD <= reg vs i.
Proof.
  unfold chordPads. rewrite list_elem_of_filter, elem_of_seq. intuition lia.
Qed.

Lemma chordPads_NoDup (vs : list Z) : NoDup (chordPads vs).
Proof. apply NoDup_filter, NoDup_seq. Qed.

Lemma drumName_nonempty (i : nat) : (i < sizeof_drums)%nat -> drumName i <> "".
Proof.
  unfold sizeof_drums. intros H.
  do 9 (destruct i as [|i]; [discriminate|]). lia.
Qed.

Lemma concat_names_nonempty (pads : list nat) :
  pads <> [] -> Forall (fun i => (i < sizeof_drums)%nat) pads ->
  String.concat "," (drumName <$> pads) <> "".
Proof.
  destruct pads as [|i pads]; [done|]. intros _ H.
  apply Forall_cons in H as [Hi _]. apply drumName_nonempty in Hi.
  rewrite fmap_cons, concat_cons.
  destruct (drumName <$> pads); [done|].
  intros Heq. by apply append_empty_inv in Heq as [? _].
Qed.

Lemma append_period_ne (s : string) : s <> "" -> s +:+ "." <> ".".
Proof.
  destruct s as [|c s]; [done|]. intros _. rewrite append_cons. intros [= _ H].
  by apply append_empty_inv in H as [_ ?].
Qed.

(** C10: when the first loop of the tick handler asks for handling, the
    pads whose register passes the test of [handleStroke] are at least
    one; the text [handleStroke] returns is their names, none of them
    empty, joined by commas and closed by a period, so it begins with the
    name of a pad; the loop ends with [empty] cleared; and this text, never
    the bare period, is what the tick handler appends to the sentence. *)
Theorem C10_chord_has_a_pad (st : state) :
  needsHandling (velocities st) = true ->
  let acc := handleStroke_loop (velocities st) sizeof_drums in
  (exists p pads,
     filter (fun i => STROKE_THRESHOLD <= reg (velocities st) i)
            (seq 0 sizeof_drums) = p :: pads
     /\ Forall (fun i => (i < sizeof_drums)%nat /\ drumName i <> "") (p :: pads)
     /\ handleStroke (velocities st) sizeof_drums
        = String.concat "," (drumName <$> p :: pads) +:+ "."
     /\ (exists rest,
           handleStroke (velocities st) sizeof_drums = drumName p +:+ rest)
     /\ buf (stroke_phase st).1
        = buf st +:+ String.concat "," (drumName <$> p :: pads) +:+ ".")
  /\ (exists i, (i < sizeof_drums)%nat /\ STROKE_THRESHOLD <= reg (velocities st) i
                /\ i ∈ hit acc)
  /\ empty acc = false
  /\ strokeBuf acc <> ""
  /\ handleStroke (velocities st) sizeof_drums <> "."
  /\ buf (stroke_phase st).1 = buf st +:+ handleStroke (velocities st) sizeof_drums.
Proof.
  intros Hneeds acc.
  pose proof Hneeds as Hn. apply needsHandling_spec in Hn as (i & Hi & Hge & _).
  assert (i ∈ chordPads (velocities st)) as Hin by by apply elem_of_chordPads.
  assert (chordPads (velocities st) <> []) as Hne.
  { intros Heq. rewrite Heq in Hin. by apply elem_of_nil in Hin. }
  assert (strokeBuf acc <> "") as Hbuf.
  { unfold acc. unfold_handleStroke (velocities st).
    pose proof (concat_names_nonempty (chordPads (velocities st)) Hne) as Hc.
    destruct (chordPads (velocities st)) as [|h t] eqn:Hpads; [done|].
    apply Hc. rewrite <- Hpads. apply Forall_forall. intros j Hj.
    by apply elem_of_chordPads in Hj as [? _]. }
  assert (buf (stroke_phase st).1
          = buf st +:+ handleStroke (velocities st) sizeof_drums) as Happend.
  { unfold stroke_phase. by rewrite Hneeds. }
  split; [|split; [|split; [|split; [|split]]]].
  - pose proof (handleStroke_spec (velocities st)) as Htext.
    rewrite Happend, Htext. unfold chordText.
    assert (Forall (fun i => (i < sizeof_drums)%nat /\ drumName i <> "")
                   (chordPads (velocities st))) as Hnames.
    { apply Forall_forall. intros j Hj.
      apply elem_of_chordPads in Hj as [Hj _].
      split; [done | by apply drumName_nonempty]. }
    fold (chordPads (velocities st)).
    destruct (chordPads (velocities st)) as [|p pads]; [done|].
    exists p, pads. split; [done|]. split; [done|]. split; [done|].
    split; [|done].
    rewrite fmap_cons, concat_cons.
    destruct (drumName <$> pads) as [|n ns].
    + by exists ".".
    + exists ("," +:+ String.concat "," (n :: ns) +:+ ".").
      by rewrite !append_assoc.
  - exists i. unfold acc. by rewrite handleStroke_hit.
  - destruct (empty acc) eqn:He; [|done].
    by apply handleStroke_empty in He.
  - done.
  - by apply append_period_ne.
  - done.
Qed.

(** ** The steps of the tick handler *)

Lemma chordText_nonempty (pads : list nat) : chordText pads <> "".
Proof.
  unfold chordText. intros H. by apply append_empty_inv in H as [_ ?].
Qed.

Lemma stroke_phase_fires (st : state) :
  wf st -> needsHandling (velocities st) = true ->
  stroke_phase st
  = ({| velocities := zeros;
        buf := buf st +:+ chordText (chordPads (velocities st));
        ticksSinceStroke := if buf_empty (buf st) then 0 else ticksSinceStroke st |},
     [Chord (chordPads (velocities st)) (chordText (chordPads (velocities st)))]).
Proof.
  intros Hwf Hneeds. unfold stroke_phase. rewrite Hneeds.
  by rewrite handleStroke_spec, handleStroke_hit, memset0_spec.
Qed.

Lemma stroke_phase_quiet (st : state) :
  needsHandling (velocities st) = false -> stroke_phase st = (st, []).
Proof. intros Hneeds. unfold stroke_phase. by rewrite Hneeds. Qed.

Lemma stroke_phase_wf (st : state) : wf st -> wf (stroke_phase st).1.
Proof.
  intros Hwf. destruct (needsHandling (velocities st)) eqn:Hneeds.
  - by rewrite stroke_phase_fires.
  - by rewrite stroke_phase_quiet.
Qed.

Lemma needsHandling_not_true (vs : list Z) :
  needsHandling vs = false <-> ~ exists i, (i < sizeof_drums)%nat /\ decays_out vs i.
Proof. rewrite <- needsHandling_spec. by destruct (needsHandling vs). Qed.

(** C1: in the first step of a tick a chord is appended exactly when some
    register is at or above the stroke threshold with its half below it;
    the chord is made of the pads whose register is at or above the
    threshold, in the order of the enumeration, and once it is appended all
    nine registers are zero; without a chord the step changes nothing.
    The second step halves every register, and every tick runs it, between
    the first step and the flush test. *)
Theorem C1_tick_chord_and_decay (st st1 : state) (out : list event) :
  wf st ->
  stroke_phase st = (st1, out) ->
  ((exists pads text, out = [Chord pads text]) <->
   (exists i, (i < sizeof_drums)%nat /\
      STROKE_THRESHOLD <= reg (velocities st) i /\
      reg (velocities st) i / 2 < STROKE_THRESHOLD))
  /\ (out = [] /\ st1 = st \/
      exists pads,
        out = [Chord pads (chordText pads)]
        /\ pads = filter (fun i => STROKE_THRESHOLD <= reg (velocities st) i)
                         (seq 0 sizeof_drums)
        /\ (forall i, i ∈ pads <->
              (i < sizeof_drums)%nat /\ STROKE_THRESHOLD <= reg (velocities st) i)
        /\ buf st1 = buf st +:+ chordText pads
        /\ velocities st1 = replicate sizeof_drums 0)
  /\ velocities (decay_phase st1) = (fun r => r / 2) <$> velocities st1
  /\ (forall i, reg (velocities (decay_phase st1)) i = reg (velocities st1) i / 2)
  /\ tick st = (let '(st3, flushed) := flush_phase (decay_phase st1) in
                (st3, out ++ flushed)).
Proof.
  intros Hwf Hphase.
  assert (wf st1) as Hwf1.
  { pose proof (stroke_phase_wf st Hwf) as H. by rewrite Hphase in H. }
  assert (tick st = (let '(st3, flushed) := flush_phase (decay_phase st1) in
                     (st3, out ++ flushed))) as Htick.
  { unfold tick. by rewrite Hphase. }
  pose proof (needsHandling_spec (velocities st)) as Hspec.
  unfold decays_out in Hspec.
  destruct (needsHandling (velocities st)) eqn:Hneeds.
  - rewrite stroke_phase_fires in Hphase by done. injection Hphase as <- <-.
    split; [|split; [|split; [|split]]].
    + split; [intros _; by apply Hspec | intros _; eauto].
    + right. exists (chordPads (velocities st)).
      split; [done|]. split; [done|]. split; [|done].
      intros i. apply elem_of_chordPads.
    + apply halve_spec, Hwf1.
    + intros i. apply reg_halve, Hwf1.
    + apply Htick.
  - rewrite stroke_phase_quiet in Hphase by done. injection Hphase as <- <-.
    split; [|split; [|split; [|split]]].
    + split; [by intros (pads & text & ?)|].
      intros H. apply Hspec in H. discriminate.
    + by left.
    + apply halve_spec, Hwf.
    + intros i. apply reg_halve, Hwf.
    + apply Htick.
Qed.

Lemma C1_witness :
  wf (State [40; 0; 0; 0; 7; 0; 0; 0; 3] "RIDE." 2)
  /\ stroke_phase (State [40; 0; 0; 0; 7; 0; 0; 0; 3] "RIDE." 2)
     = (State [0; 0; 0; 0; 0; 0; 0; 0; 0] "RIDE.BD,SNARE." 2,
        [Chord [0%nat; 4%nat] "BD,SNARE."])
  /\ exists i, (i < sizeof_drums)%nat /\
       STROKE_THRESHOLD <= reg [40; 0; 0; 0; 7; 0; 0; 0; 3] i /\
       reg [40; 0; 0; 0; 7; 0; 0; 0; 3] i / 2 < STROKE_THRESHOLD.
Proof.
  split; [reflexivity|]. split; [reflexivity|].
  apply (C1_tick_chord_and_decay
           (State [40; 0; 0; 0; 7; 0; 0; 0; 3] "RIDE." 2)
           (State [0; 0; 0; 0; 0; 0; 0; 0; 0] "RIDE.BD,SNARE." 2)
           [Chord [0%nat; 4%nat] "BD,SNARE."] eq_refl eq_refl).
  by eexists _, _.
Defined.

(** ** The flush step *)

Lemma flush_test (st : state) :
  (TICK_THRESHOLD <? ticksSinceStroke st) && negb (buf_empty (buf st)) = true
  <-> buf st <> "" /\ TICK_THRESHOLD < ticksSinceStroke st.
Proof.
  rewrite andb_true_iff, Z.ltb_lt, negb_true_iff, buf_empty_false. tauto.
Qed.

(** What a flush sends out for the sentence [s]. *)
Lemma handleSentence_out (s : string) :
  (let '(found, sent) := handleSentence s in
   sent ++ (if found then []
            else [Stderr ("UNKNOWN SEQUENCE: " +:+ s +:+ newline)]))
  = match handleSentence_scan s map with
    | Some e => [XKey true (keycode e) (modifiers e);
                 XKey false (keycode e) (modifiers e)]
    | None => [Stderr ("UNKNOWN SEQUENCE: " +:+ s +:+ newline)]
    end.
Proof. unfold handleSentence. by destruct (handleSentence_scan s map). Qed.

Lemma flush_phase_flushes (st : state) :
  wf st -> buf st <> "" -> TICK_THRESHOLD < ticksSinceStroke st ->
  flush_phase st
  = (State zeros "" 0,
     match handleSentence_scan (buf st) map with
     | Some e => [XKey true (keycode e) (modifiers e);
                  XKey false (keycode e) (modifiers e)]
     | None => [Stderr ("UNKNOWN SEQUENCE: " +:+ buf st +:+ newline)]
     end).
Proof.
  intros Hwf Hbuf Hticks. unfold flush_phase.
  rewrite (proj2 (flush_test st)) by done.
  rewrite <- handleSentence_out, memset0_spec by done.
  by destruct (handleSentence (buf st)).
Qed.

Lemma flush_phase_waits (st : state) :
  ~ (buf st <> "" /\ TICK_THRESHOLD < ticksSinceStroke st) ->
  flush_phase st
  = (State (velocities st) (buf st) ((ticksSinceStroke st + 1) mod 256), []).
Proof.
  intros Hno. unfold flush_phase. rewrite <- flush_test in Hno.
  by destruct ((TICK_THRESHOLD <? ticksSinceStroke st) && negb (buf_empty (buf st))).
Qed.

(** The first step of a tick leaves the flush test as it was: it can only
    make an empty sentence non-empty, and then it clears the counter. *)
Lemma stroke_phase_flush_test (st : state) :
  wf st ->
  (buf (stroke_phase st).1 <> ""
   /\ TICK_THRESHOLD < ticksSinceStroke (stroke_phase st).1)
  <-> (buf st <> "" /\ TICK_THRESHOLD < ticksSinceStroke st).
Proof.
  intros Hwf. destruct (needsHandling (velocities st)) eqn:Hneeds.
  - rewrite stroke_phase_fires by done. simpl.
    destruct (buf st) as [|c s] eqn:Hbuf; simpl.
    + unfold TICK_THRESHOLD. split; intros [? ?]; [lia | done].
    + split; intros [_ ?]; (split; [done|done]).
  - by rewrite stroke_phase_quiet.
Qed.

(** C5: the tick flushes exactly when the sentence is not empty and the
    counter is above the tick threshold (read before the increment of the
    test; by the sentence and counter as the first step of the tick left
    them, which comes to the same as those the tick started with).  A
    flush sends the key press and release of the entry found, or writes the
    sentence to the diagnostic stream when none is found; either way the
    sentence is then empty, and the counter and all nine registers are 0.
    Without a flush the counter goes up by one, modulo 256. *)
Theorem C5_flush_when_silent (st st1 st3 : state) (chord flushed : list event) :
  wf st ->
  stroke_phase st = (st1, chord) ->
  flush_phase (decay_phase st1) = (st3, flushed) ->
  (flushed <> [] <-> buf st1 <> "" /\ TICK_THRESHOLD < ticksSinceStroke st1)
  /\ (flushed <> [] <-> buf st <> "" /\ TICK_THRESHOLD < ticksSinceStroke st)
  /\ (flushed <> [] ->
      st3 = State (replicate sizeof_drums 0) "" 0
      /\ match handleSentence_scan (buf st1) map with
         | Some e => flushed = [XKey true (keycode e) (modifiers e);
                                XKey false (keycode e) (modifiers e)]
         | None => flushed = [Stderr ("UNKNOWN SEQUENCE: " +:+ buf st1 +:+ newline)]
         end)
  /\ (flushed = [] ->
      st3 = State (velocities (decay_phase st1)) (buf st1)
                  ((ticksSinceStroke st1 + 1) mod 256))
  /\ tick st = (st3, chord ++ flushed).
Proof.
  intros Hwf Hstroke Hflush.
  assert (wf (decay_phase st1)) as Hwf2.
  { pose proof (stroke_phase_wf st Hwf) as H. rewrite Hstroke in H.
    by apply halve_length. }
  pose proof (stroke_phase_flush_test st Hwf) as Hsame.
  rewrite Hstroke in Hsame. cbn [fst] in Hsame.
  assert (tick st = (st3, chord ++ flushed)) as Htick.
  { unfold tick. by rewrite Hstroke, Hflush. }
  destruct (decide (buf st1 <> "" /\ TICK_THRESHOLD < ticksSinceStroke st1))
    as [Hyes|Hno].
  - destruct Hyes as [Hbuf Hticks].
    rewrite flush_phase_flushes in Hflush by done.
    change (buf (decay_phase st1)) with (buf st1) in Hflush.
    destruct (handleSentence_scan (buf st1) map) as [e|];
      apply pair_equal_spec in Hflush as [<- <-];
      (split; [|split; [|split; [|split]]]; try done);
      split; try done; intros _; by apply Hsame.
  - rewrite flush_phase_waits in Hflush by done.
    apply pair_equal_spec in Hflush as [<- <-].
    split; [|split; [|split; [|split]]]; try done.
    split; [done|]. intros H. by apply Hsame in H.
Qed.

Lemma C5_witness :
  wf (State [0; 0; 0; 0; 0; 0; 0; 0; 0] "HH,HH." 6)
  /\ tick (State [0; 0; 0; 0; 0; 0; 0; 0; 0] "HH,HH." 6)
     = (State [0; 0; 0; 0; 0; 0; 0; 0; 0] "" 0,
        [Stderr ("UNKNOWN SEQUENCE: HH,HH." +:+ newline)]).
Proof.
  split; [reflexivity|].
  apply (C5_flush_when_silent
           (State [0; 0; 0; 0; 0; 0; 0; 0; 0] "HH,HH." 6)
           (State [0; 0; 0; 0; 0; 0; 0; 0; 0] "HH,HH." 6)
           (State [0; 0; 0; 0; 0; 0; 0; 0; 0] "" 0)
           [] [Stderr ("UNKNOWN SEQUENCE: HH,HH." +:+ newline)]
           eq_refl eq_refl eq_refl).
Defined.

(** ** The counter of ticks at a chord *)

Lemma tick_counter_after_first_chord (st : state) :
  needsHandling (velocities st) = true -> buf st = "" ->
  ticksSinceStroke (tick st).1 = 1.
Proof.
  intros Hneeds Hbuf. unfold tick, stroke_phase. rewrite Hneeds, Hbuf.
  cbn [buf_empty]. unfold flush_phase. cbn [decay_phase ticksSinceStroke buf].
  change (TICK_THRESHOLD <? 0) with false. reflexivity.
Qed.

(** C2, as the code has it: when a tick appends a chord, the counter is
    set to 0 if the sentence was empty before this chord, and is then 1 at
    the end of that tick; if the sentence already held a chord, the
    counter is left as it was, so the ticks are counted from the first
    chord of the sentence. *)
Theorem C2_counter_reset_at_first_chord (st : state) :
  needsHandling (velocities st) = true ->
  (buf st = "" ->
   ticksSinceStroke (stroke_phase st).1 = 0
   /\ ticksSinceStroke (tick st).1 = 1)
  /\ (buf st <> "" ->
      ticksSinceStroke (stroke_phase st).1 = ticksSinceStroke st).
Proof.
  intros Hneeds. split.
  - intros Hbuf. split; [|by apply tick_counter_after_first_chord].
    unfold stroke_phase. by rewrite Hneeds, Hbuf.
  - intros Hbuf. unfold stroke_phase. rewrite Hneeds.
    apply buf_empty_false in Hbuf. cbn [fst ticksSinceStroke]. by rewrite Hbuf.
Qed.

Lemma C2_witness :
  needsHandling [0; 0; 0; 0; 0; 0; 8; 0; 0] = true
  /\ ticksSinceStroke
       (stroke_phase (State [0; 0; 0; 0; 0; 0; 8; 0; 0] "RIDE." 3)).1 = 3.
Proof.
  split; [reflexivity|].
  apply (C2_counter_reset_at_first_chord
           (State [0; 0; 0; 0; 0; 0; 8; 0; 0] "RIDE." 3) eq_refl).
  discriminate.
Defined.

(** C2 as stated fails: the input of a RIDE stroke, three ticks, a second
    RIDE stroke and one tick leaves the registers and the sentence such
    that the next tick appends the second chord, and that tick does not
    clear the counter: it is 3 after the append and 4 at the end of the
    tick. *)
Lemma C2_counterexample :
  main [] [0; 0; 0; 0; 0; 0; 0; 0; 0]
       [0x90; RIDE; 16; MIDI_TICK; MIDI_TICK; MIDI_TICK;
        0x90; RIDE; 16; MIDI_TICK]
  = Ok (State [0; 0; 0; 0; 0; 0; 8; 0; 0] "RIDE." 3, [Chord [6%nat] "RIDE."])
  /\ stroke_phase (State [0; 0; 0; 0; 0; 0; 8; 0; 0] "RIDE." 3)
     = (State [0; 0; 0; 0; 0; 0; 0; 0; 0] "RIDE.RIDE." 3,
        [Chord [6%nat] "RIDE."])
  /\ tick (State [0; 0; 0; 0; 0; 0; 8; 0; 0] "RIDE." 3)
     = (State [0; 0; 0; 0; 0; 0; 0; 0; 0] "RIDE.RIDE." 4,
        [Chord [6%nat] "RIDE."])
  /\ ~ (forall st : state,
          needsHandling (velocities st) = true ->
          ticksSinceStroke (stroke_phase st).1 = 0).
Proof.
  split; [reflexivity|]. split; [reflexivity|]. split; [reflexivity|].
  intros H.
  specialize (H (State [0; 0; 0; 0; 0; 0; 8; 0; 0] "RIDE." 3) eq_refl).
  discriminate H.
Qed.

(** ** strchr on the pad enumeration *)

Lemma strchr_nul (s : list Z) :
  exists k, strchr s 0 = Some k /\ (k <= length s)%nat.
Proof.
  induction s as [|b s (k & IH & Hk)]; simpl.
  - exists 0%nat. done.
  - destruct (Z.eqb_spec b 0) as [Hb|Hb]; [exists 0%nat; split; [done | lia]|].
    exists (S k). rewrite IH. split; [done | lia].
Qed.

Lemma strchr_absent (s : list Z) (c : Z) :
  c <> 0 -> c ∉ s -> strchr s c = None.
Proof.
  intros Hc. induction s as [|b s IH]; simpl; intros Hnotin.
  - by destruct (Z.eqb_spec c 0).
  - apply not_elem_of_cons in Hnotin as [Hne Hnotin].
    destruct (Z.eqb_spec b c); [congruence|].
    destruct (b =? 0); [done|]. by rewrite IH.
Qed.

Lemma strchr_app_skip (s1 s2 : list Z) (c : Z) :
  Forall (fun b => b <> c /\ b <> 0) s1 ->
  strchr (s1 ++ s2) c = (fun k => (length s1 + k)%nat) <$> strchr s2 c.
Proof.
  induction 1 as [|b s1 [Hbc Hb0] _ IH]; simpl.
  - by destruct (strchr s2 c).
  - destruct (Z.eqb_spec b c); [done|]. destruct (Z.eqb_spec b 0); [done|].
    rewrite IH. by destruct (strchr s2 c).
Qed.

Section DecoderProperties.

Variable rodata : list Z.

(** A pad of the enumeration is found at its own index, whatever follows
    the array. *)
Lemma strchr_drums_known (p : nat) (key : Z) :
  drums !! p = Some key -> strchr (drums ++ rodata) key = Some p.
Proof.
  intros Hp.
  do 9 (destruct p as [|p]; [injection Hp as <-; reflexivity|]).
  discriminate Hp.
Qed.

(** Looking for the byte 0 finds the terminator, which lies behind the
    nine pads. *)
Lemma strchr_drums_nul :
  exists i, (sizeof_drums <= i)%nat /\ strchr (drums ++ rodata) 0 = Some i.
Proof.
  destruct (strchr_nul rodata) as (k & Hk & _).
  exists (length drums + k)%nat. split; [simpl; unfold sizeof_drums; lia|].
  rewrite strchr_app_skip, Hk; [done|].
  unfold drums. repeat constructor; done.
Qed.

Lemma noteOn_soft (key velocity : Z) (st : state) :
  velocity < HIT_THRESHOLD -> noteOn rodata key velocity st = Ok st.
Proof.
  intros H. unfold noteOn.
  by destruct (Z.leb_spec HIT_THRESHOLD velocity); [lia|].
Qed.

Lemma noteOn_known (p : nat) (key velocity : Z) (st : state) :
  HIT_THRESHOLD <= velocity -> drums !! p = Some key ->
  noteOn rodata key velocity st
  = Ok (State (<[p := velocity]> (velocities st)) (buf st) (ticksSinceStroke st)).
Proof.
  intros H Hp. unfold noteOn.
  destruct (Z.leb_spec HIT_THRESHOLD velocity); [|lia].
  rewrite (strchr_drums_known p key Hp).
  apply lookup_lt_Some in Hp. change (length drums) with sizeof_drums in Hp.
  by destruct (Nat.ltb_spec p sizeof_drums); [|lia].
Qed.

Lemma noteOn_unknown (key velocity : Z) (st : state) :
  key <> 0 -> key ∉ drums ++ rodata -> noteOn rodata key velocity st = Ok st.
Proof.
  intros H0 Hnotin. unfold noteOn.
  rewrite (strchr_absent _ _ H0 Hnotin). by destruct (HIT_THRESHOLD <=? velocity).
Qed.

(** ** The decode loop, byte by byte *)

Lemma decode_tick (rest : list Z) (st : state) :
  decode rodata (MIDI_TICK :: rest) st
  = r ← decode rodata rest (tick st).1; Ok (r.1, (tick st).2 ++ r.2).
Proof. simpl. by destruct (tick st). Qed.

Lemma note_on_is_no_tick (status : Z) :
  Z.land status 0xf0 = MIDI_NOTE_ON -> (status =? MIDI_TICK) = false.
Proof.
  intros H. destruct (Z.eqb_spec status MIDI_TICK) as [->|]; [discriminate|done].
Qed.

Lemma decode_note (status key velocity : Z) (rest : list Z) (st : state) :
  Z.land status 0xf0 = MIDI_NOTE_ON ->
  decode rodata (status :: key :: velocity :: rest) st
  = st2 ← noteOn rodata key velocity st; decode rodata rest st2.
Proof.
  intros H. cbn [decode]. rewrite (note_on_is_no_tick status H), H.
  change (MIDI_NOTE_ON =? MIDI_NOTE_ON) with true. cbv iota.
  destruct (noteOn rodata key velocity st) as [st2|]; [|done].
  cbn [mbind result_bind].
  by destruct (decode rodata rest st2) as [[st3 out]|].
Qed.

Lemma decode_skip (ch : Z) (rest : list Z) (st : state) :
  ch <> MIDI_TICK -> Z.land ch 0xf0 <> MIDI_NOTE_ON ->
  decode rodata (ch :: rest) st = decode rodata rest st.
Proof.
  intros Ht Hn. cbn [decode].
  destruct (Z.eqb_spec ch MIDI_TICK); [done|].
  destruct (Z.eqb_spec (Z.land ch 0xf0) MIDI_NOTE_ON); [done|].
  by destruct (decode rodata rest st) as [[st3 out]|].
Qed.

Lemma decode_ticks (n : nat) (st : state) :
  decode rodata (replicate n MIDI_TICK) st = Ok (ticks n st).
Proof.
  revert st. induction n as [|n IH]; intros st; [done|].
  change (replicate (S n) MIDI_TICK) with (MIDI_TICK :: replicate n MIDI_TICK).
  rewrite decode_tick, IH. cbn [ticks mbind result_bind].
  destruct (tick st) as [st1 out1]. cbn [fst snd].
  by destruct (ticks n st1).
Qed.

(** C6, at the input where the code does not drop an unknown key: a
    note-on message for key 0 with velocity 127.  [strchr] finds the
    terminator of the string it was given, behind the nine pads, so the
    velocity is stored outside the register block instead of being
    dropped.  This holds whatever lies behind [drums] and in whatever
    state the message arrives. *)
Theorem C6_key_zero_is_stored_out_of_bounds (st : state) :
  exists i, (sizeof_drums <= i)%nat
    /\ noteOn rodata 0 0x7f st = OutOfBounds i
    /\ decode rodata [0x90; 0; 0x7f] st = OutOfBounds i.
Proof.
  destruct strchr_drums_nul as (i & Hi & Hfind).
  assert (noteOn rodata 0 0x7f st = OutOfBounds i) as Hnote.
  { unfold noteOn. change (HIT_THRESHOLD <=? 0x7f) with true. cbv iota.
    rewrite Hfind. by destruct (Nat.ltb_spec i sizeof_drums); [lia|]. }
  exists i. split; [done|]. split; [done|].
  rewrite decode_note by done. by rewrite Hnote.
Qed.

End DecoderProperties.

(** C3, at startup: the registers at the start of the loop are the bytes
    that [malloc] handed out.  With a 5 left in the first byte, the first
    tick already appends the chord of the bass drum, although no pad was
    struck; from a zeroed block it appends nothing. *)
Theorem C3_startup_registers_are_not_cleared :
  (forall heap, velocities (main_init heap) = heap)
  /\ velocities (main_init [5; 0; 0; 0; 0; 0; 0; 0; 0]) <> replicate sizeof_drums 0
  /\ main [] [5; 0; 0; 0; 0; 0; 0; 0; 0] [MIDI_TICK]
     = Ok (State [0; 0; 0; 0; 0; 0; 0; 0; 0] "BD." 1, [Chord [0%nat] "BD."])
  /\ main [] [0; 0; 0; 0; 0; 0; 0; 0; 0] [MIDI_TICK]
     = Ok (State [0; 0; 0; 0; 0; 0; 0; 0; 0] "" 1, []).
Proof. repeat split; try reflexivity. discriminate. Qed.

(** C9, at two runs on the same recording of eight ticks: the run whose
    register block started with a 5 in its first byte types a space, the
    run whose block started zeroed does nothing. *)
Theorem C9_replay_depends_on_startup_registers :
  main [] [5; 0; 0; 0; 0; 0; 0; 0; 0] (replicate 8 MIDI_TICK)
  = Ok (State [0; 0; 0; 0; 0; 0; 0; 0; 0] "" 1,
        [Chord [0%nat] "BD."; XKey true XK_space 0; XKey false XK_space 0])
  /\ main [] [0; 0; 0; 0; 0; 0; 0; 0; 0] (replicate 8 MIDI_TICK)
     = Ok (State [0; 0; 0; 0; 0; 0; 0; 0; 0] "" 8, [])
  /\ main [] [5; 0; 0; 0; 0; 0; 0; 0; 0] (replicate 8 MIDI_TICK)
     <> main [] [0; 0; 0; 0; 0; 0; 0; 0; 0] (replicate 8 MIDI_TICK).
Proof.
  assert (main [] [5; 0; 0; 0; 0; 0; 0; 0; 0] (replicate 8 MIDI_TICK)
          = Ok (State [0; 0; 0; 0; 0; 0; 0; 0; 0] "" 1,
                [Chord [0%nat] "BD."; XKey true XK_space 0; XKey false XK_space 0]))
    as Hdirty by reflexivity.
  assert (main [] [0; 0; 0; 0; 0; 0; 0; 0; 0] (replicate 8 MIDI_TICK)
          = Ok (State [0; 0; 0; 0; 0; 0; 0; 0; 0] "" 8, []))
    as Hzeroed by reflexivity.
  split; [exact Hdirty|]. split; [exact Hzeroed|].
  rewrite Hdirty, Hzeroed. discriminate.
Qed.

(** ** Runs of ticks *)

Lemma ticks_S_eq (n : nat) (st : state) :
  ticks (S n) st
  = (let '(st1, out1) := tick st in
     let '(st2, out2) := ticks n st1 in
     (st2, out1 ++ out2)).
Proof. reflexivity. Qed.

Lemma chords_app (out1 out2 : list event) :
  chords (out1 ++ out2) = chords out1 ++ chords out2.
Proof. apply omap_app. Qed.

Lemma tick_quiet_idle (st : state) :
  wf st -> needsHandling (velocities st) = false -> buf st = "" ->
  tick st
  = (State (halve (velocities st)) "" ((ticksSinceStroke st + 1) mod 256), []).
Proof.
  intros Hwf Hneeds Hbuf. unfold tick. rewrite stroke_phase_quiet by done.
  rewrite flush_phase_waits.
  - cbn [decay_phase velocities buf ticksSinceStroke]. by rewrite Hbuf.
  - cbn [decay_phase buf]. intros [H _]. done.
Qed.

Lemma tick_fires_idle (st : state) :
  wf st -> needsHandling (velocities st) = true -> buf st = "" ->
  tick st
  = (State zeros (chordText (chordPads (velocities st))) 1,
     [Chord (chordPads (velocities st)) (chordText (chordPads (velocities st)))]).
Proof.
  intros Hwf Hneeds Hbuf. unfold tick. rewrite stroke_phase_fires by done.
  rewrite flush_phase_waits.
  - cbn [decay_phase velocities buf ticksSinceStroke]. by rewrite Hbuf.
  - cbn [decay_phase ticksSinceStroke]. rewrite Hbuf. cbn [buf_empty].
    unfold TICK_THRESHOLD. lia.
Qed.

(** Once the registers are at rest, ticks leave them at rest and append no
    chord, whether or not a flush falls among them. *)
Lemma tick_at_rest (st : state) :
  velocities st = zeros ->
  velocities (tick st).1 = zeros /\ chords (tick st).2 = [].
Proof.
  intros Hz. assert (wf st) as Hwf by (unfold wf; by rewrite Hz).
  unfold tick. rewrite stroke_phase_quiet by (by rewrite Hz).
  assert (wf (decay_phase st)) as Hwf2 by by apply halve_length.
  destruct (decide (buf (decay_phase st) <> ""
                    /\ TICK_THRESHOLD < ticksSinceStroke (decay_phase st)))
    as [[Hbuf Hticks]|Hno].
  - rewrite flush_phase_flushes by done. cbn [fst snd velocities app].
    split; [done|]. by destruct (handleSentence_scan _ map).
  - rewrite flush_phase_waits by done. cbn [fst snd velocities decay_phase].
    by rewrite Hz.
Qed.

Lemma ticks_at_rest (n : nat) (st : state) :
  velocities st = zeros ->
  velocities (ticks n st).1 = zeros /\ chords (ticks n st).2 = [].
Proof.
  revert st. induction n as [|n IH]; intros st Hz; [done|].
  cbn [ticks]. destruct (tick_at_rest st Hz) as [Hz1 Hc1].
  destruct (tick st) as [st1 out1]. cbn [fst snd] in Hz1, Hc1.
  destruct (IH st1 Hz1) as [Hz2 Hc2].
  destruct (ticks n st1) as [st2 out2]. cbn [fst snd] in *.
  split; [done|]. by rewrite chords_app, Hc1, Hc2.
Qed.

(** A tick without a chord halves the registers; if they were clean, they
    still are, and the same pads ring. *)
Lemma halve_clean (vs : list Z) :
  length vs = sizeof_drums -> clean vs -> needsHandling vs = false ->
  clean (halve vs) /\ chordPads (halve vs) = chordPads vs.
Proof.
  intros Hlen Hclean Hneeds.
  assert (forall i, STROKE_THRESHOLD <= reg vs i -> STROKE_THRESHOLD <= reg vs i / 2)
    as Hup.
  { intros i Hi.
    destruct (decide (i < sizeof_drums)%nat) as [Hlt|Hge].
    - apply needsHandling_not_true in Hneeds.
      destruct (Z.le_gt_cases STROKE_THRESHOLD (reg vs i / 2)); [done|].
      exfalso. apply Hneeds. exists i. by split.
    - rewrite reg_ge in Hi by lia. unfold STROKE_THRESHOLD in Hi. lia. }
  split.
  - intros i. rewrite reg_halve by done.
    destruct (Hclean i) as [H0|Hring]; [left; by rewrite H0 | right; by apply Hup].
  - unfold chordPads. apply list_filter_iff. intros i.
    rewrite reg_halve by done.
    split; [|by apply Hup]. intros Hi.
    destruct (Hclean i) as [H0|Hring]; [|done].
    rewrite H0 in Hi. unfold STROKE_THRESHOLD in Hi. change (0 / 2) with 0 in Hi. lia.
Qed.

(** From an empty sentence and clean registers of which one rings below
    [10 * 2^k], any run of more than [k] ticks appends exactly one chord:
    the pads that ring. *)
Lemma ring_out (k : nat) :
  forall (st : state) (p : nat) (n : nat),
    wf st -> buf st = "" -> clean (velocities st) ->
    (p < sizeof_drums)%nat ->
    STROKE_THRESHOLD <= reg (velocities st) p < 10 * 2 ^ Z.of_nat k ->
    (k < n)%nat ->
    chords (ticks n st).2
    = [(chordPads (velocities st), chordText (chordPads (velocities st)))].
Proof.
  induction k as [|k IH]; intros st p n Hwf Hbuf Hclean Hp Hring Hn;
    (destruct n as [|n]; [lia|]); cbn [ticks];
    destruct (needsHandling (velocities st)) eqn:Hneeds.
  - rewrite tick_fires_idle by done.
    destruct (ticks_at_rest n (State zeros (chordText (chordPads (velocities st))) 1)
                eq_refl) as [_ Hc].
    destruct (ticks n _) as [st2 out2]. cbn [fst snd] in *.
    by rewrite chords_app, Hc.
  - exfalso. apply needsHandling_not_true in Hneeds. apply Hneeds.
    exists p. split; [done|]. unfold decays_out. split; [lia|].
    change (10 * 2 ^ Z.of_nat 0) with 10 in Hring. unfold STROKE_THRESHOLD in *.
    apply Z.div_lt_upper_bound; lia.
  - rewrite tick_fires_idle by done.
    destruct (ticks_at_rest n (State zeros (chordText (chordPads (velocities st))) 1)
                eq_refl) as [_ Hc].
    destruct (ticks n _) as [st2 out2]. cbn [fst snd] in *.
    by rewrite chords_app, Hc.
  - rewrite tick_quiet_idle by done.
    destruct (halve_clean (velocities st) Hwf Hclean Hneeds) as [Hclean' Hpads].
    pose proof (IH (State (halve (velocities st)) ""
                          ((ticksSinceStroke st + 1) mod 256)) p n) as Hrest.
    cbn [velocities buf] in Hrest. rewrite Hpads in Hrest.
    destruct (ticks n _) as [st2 out2]. cbn [fst snd] in *.
    apply Hrest; try done; try lia.
    + by apply halve_length.
    + rewrite reg_halve by done.
      assert (STROKE_THRESHOLD <= reg (velocities st) p / 2) as Hlow.
      { apply needsHandling_not_true in Hneeds.
        destruct (Z.le_gt_cases STROKE_THRESHOLD (reg (velocities st) p / 2)); [done|].
        exfalso. apply Hneeds. exists p. split; [done|]. split; [lia | done]. }
      split; [done|].
      rewrite Nat2Z.inj_succ, Z.pow_succ_r in Hring by lia.
      apply Z.div_lt_upper_bound; lia.
Qed.

(** ** Strokes on an idle engine *)

Lemma reg_insert (vs : list Z) (p i : nat) (x : Z) :
  (p < length vs)%nat ->
  reg (<[p := x]> vs) i = if decide (i = p) then x else reg vs i.
Proof.
  intros Hp. unfold reg. destruct (decide (i = p)) as [->|Hne].
  - by rewrite list_lookup_insert_eq.
  - by rewrite list_lookup_insert_ne.
Qed.

Lemma clean_zeros : clean zeros.
Proof. intros i. left. apply reg_zeros. Qed.

Lemma clean_insert (vs : list Z) (p : nat) (x : Z) :
  (p < length vs)%nat -> clean vs -> STROKE_THRESHOLD <= x -> clean (<[p := x]> vs).
Proof.
  intros Hp Hclean Hx i. rewrite reg_insert by done.
  destruct (decide (i = p)); [by right | apply Hclean].
Qed.

(** A filter over a range of indices that holds at one index, or at two,
    and nowhere else. *)
Lemma filter_seq_none (P : nat -> Prop) `{!forall k, Decision (P k)} (a n : nat) :
  (forall k, (a <= k < a + n)%nat -> ~ P k) -> filter P (seq a n) = [].
Proof.
  revert a. induction n as [|n IH]; intros a Hnone; [done|].
  cbn [seq]. rewrite filter_cons_False by (apply Hnone; lia).
  apply IH. intros k Hk. apply Hnone. lia.
Qed.

Lemma filter_seq_one (P : nat -> Prop) `{!forall k, Decision (P k)} (a n p : nat) :
  (a <= p < a + n)%nat -> P p ->
  (forall k, (a <= k < a + n)%nat -> k <> p -> ~ P k) ->
  filter P (seq a n) = [p].
Proof.
  intros Hp HP Hnone.
  replace n with ((p - a) + S (a + n - p - 1))%nat by lia.
  rewrite seq_app. replace (a + (p - a))%nat with p by lia. cbn [seq].
  rewrite filter_app, filter_cons_True by done.
  rewrite !filter_seq_none; [done | |]; intros k Hk; apply Hnone; lia.
Qed.

Lemma filter_seq_two (P : nat -> Prop) `{!forall k, Decision (P k)} (n i j : nat) :
  (i < j < n)%nat -> P i -> P j ->
  (forall k, (k < n)%nat -> k <> i -> k <> j -> ~ P k) ->
  filter P (seq 0 n) = [i; j].
Proof.
  intros Hij Hi Hj Hnone.
  replace n with (i + S (n - i - 1))%nat by lia.
  rewrite seq_app. cbn [seq Nat.add].
  rewrite filter_app, filter_cons_True by done.
  rewrite filter_seq_none by (intros k Hk; apply Hnone; lia).
  rewrite (filter_seq_one P (S i) (n - i - 1) j); [done | lia | done |].
  intros k Hk Hne. apply Hnone; lia.
Qed.

Lemma chordPads_one (p : nat) (x : Z) :
  (p < sizeof_drums)%nat -> STROKE_THRESHOLD <= x ->
  chordPads (<[p := x]> zeros) = [p].
Proof.
  intros Hp Hx. unfold chordPads.
  assert (length zeros = sizeof_drums) as Hlen by done.
  apply filter_seq_one.
  - lia.
  - rewrite reg_insert by lia. by rewrite decide_True.
  - intros k _ Hk. rewrite reg_insert by lia. rewrite decide_False by done.
    rewrite reg_zeros. unfold STROKE_THRESHOLD. lia.
Qed.

Lemma chordPads_two (i j : nat) (f1 f2 : Z) :
  (i < j)%nat -> (j < sizeof_drums)%nat ->
  STROKE_THRESHOLD <= f1 -> STROKE_THRESHOLD <= f2 ->
  chordPads (<[j := f2]> (<[i := f1]> zeros)) = [i; j].
Proof.
  intros Hij Hj H1 H2. unfold chordPads.
  assert (length zeros = sizeof_drums) as Hlen by done.
  assert (length (<[i:=f1]> zeros) = sizeof_drums) as Hlen'
    by by rewrite length_insert.
  apply filter_seq_two.
  - lia.
  - rewrite !reg_insert by lia. rewrite decide_False by lia.
    by rewrite decide_True.
  - rewrite reg_insert by lia. by rewrite decide_True.
  - intros k _ Hki Hkj. rewrite !reg_insert by lia.
    rewrite !decide_False by done. rewrite reg_zeros. unfold STROKE_THRESHOLD. lia.
Qed.

Section Strokes.

Variable rodata : list Z.

Lemma noteOn_pad (p : nat) (key velocity : Z) (st : state) :
  drums !! p = Some key ->
  noteOn rodata key velocity st
  = Ok (if HIT_THRESHOLD <=? velocity
        then State (<[p := velocity]> (velocities st)) (buf st) (ticksSinceStroke st)
        else st).
Proof.
  intros Hp. destruct (Z.leb_spec HIT_THRESHOLD velocity).
  - by apply noteOn_known.
  - by apply noteOn_soft.
Qed.

(** Two note-on messages for two different pads, in either order, leave
    the same state, so that the rest of the input is decoded alike. *)
Lemma decode_strokes_commute (st : state) (i j : nat)
    (s1 k1 f1 s2 k2 f2 : Z) (rest : list Z) :
  i <> j -> drums !! i = Some k1 -> drums !! j = Some k2 ->
  Z.land s1 0xf0 = MIDI_NOTE_ON -> Z.land s2 0xf0 = MIDI_NOTE_ON ->
  decode rodata (s1 :: k1 :: f1 :: s2 :: k2 :: f2 :: rest) st
  = decode rodata (s2 :: k2 :: f2 :: s1 :: k1 :: f1 :: rest) st.
Proof.
  intros Hij Hi Hj Hs1 Hs2.
  rewrite !decode_note by done.
  rewrite (noteOn_pad i k1 f1 st Hi), (noteOn_pad j k2 f2 st Hj).
  cbn [mbind result_bind]. rewrite !decode_note by done.
  rewrite (noteOn_pad j k2 f2 _ Hj), (noteOn_pad i k1 f1 _ Hi).
  cbn [mbind result_bind].
  destruct (HIT_THRESHOLD <=? f1), (HIT_THRESHOLD <=? f2); try done.
  cbn [velocities buf ticksSinceStroke].
  by rewrite list_insert_insert_ne.
Qed.

(** A stroke on an idle engine, then ticks. *)
Lemma stroke_then_ticks (st : state) (p : nat) (status key force : Z) (n : nat) :
  idle st -> drums !! p = Some key ->
  HIT_THRESHOLD <= force ->
  Z.land status 0xf0 = MIDI_NOTE_ON ->
  decode rodata (status :: key :: force :: replicate n MIDI_TICK) st
  = Ok (ticks n (State (<[p := force]> zeros) "" (ticksSinceStroke st))).
Proof.
  intros [Hz Hbuf] Hp Hforce Hstatus.
  rewrite decode_note by done.
  rewrite (noteOn_known rodata p key force st Hforce Hp).
  cbn [mbind result_bind]. by rewrite decode_ticks, Hz, Hbuf.
Qed.


End Strokes.



(** ** Strokes while a sentence is pending *)

(** A tick that appends a chord leaves the registers at rest, whether or
    not it also flushes the sentence. *)
Lemma tick_fires (st : state) :
  wf st -> needsHandling (velocities st) = true ->
  velocities (tick st).1 = zeros
  /\ chords (tick st).2
     = [(chordPads (velocities st), chordText (chordPads (velocities st)))].
Proof.
  intros Hwf Hneeds. unfold tick. rewrite stroke_phase_fires by done.
  destruct (flush_phase _) as [st3 flushed] eqn:Hflush. cbn [fst snd].
  unfold flush_phase in Hflush.
  cbn [decay_phase velocities buf ticksSinceStroke] in Hflush.
  rewrite halve_zeros in Hflush.
  destruct (_ && _) in Hflush.
  - pose proof (handleSentence_out
                  (buf st +:+ chordText (chordPads (velocities st)))) as Hout.
    destruct (handleSentence _) as [found keys] in Hflush, Hout.
    apply pair_equal_spec in Hflush as [<- <-]. rewrite Hout.
    split; [done|]. rewrite chords_app. cbn [chords omap list_omap app].
    by destruct (handleSentence_scan _ map).
  - by apply pair_equal_spec in Hflush as [<- <-].
Qed.

(** A tick without a chord, on an empty sentence or with the counter at
    most at the tick threshold, halves the registers and counts. *)
Lemma tick_quiet_waits (st : state) :
  wf st -> needsHandling (velocities st) = false ->
  buf st = "" \/ ticksSinceStroke st <= TICK_THRESHOLD ->
  tick st
  = (State (halve (velocities st)) (buf st) ((ticksSinceStroke st + 1) mod 256),
     []).
Proof.
  intros Hwf Hneeds Hwait. unfold tick. rewrite stroke_phase_quiet by done.
  rewrite flush_phase_waits; [done|].
  cbn [decay_phase buf ticksSinceStroke]. intros [Hne Hticks].
  destruct Hwait; [done | lia].
Qed.

(** [ring_out] with a sentence pending: from clean registers of which one
    rings below [10 * 2^k], with the sentence empty or its counter at most
    [6 - k], any run of more than [k] ticks appends exactly one chord, the
    pads that ring: the chord comes before the flush, or with it. *)
Lemma ring_out_pending (k : nat) :
  forall (st : state) (p : nat) (n : nat),
    wf st -> clean (velocities st) ->
    (p < sizeof_drums)%nat ->
    STROKE_THRESHOLD <= reg (velocities st) p < 10 * 2 ^ Z.of_nat k ->
    (k < n)%nat ->
    buf st = ""
    \/ (0 <= ticksSinceStroke st /\ ticksSinceStroke st + Z.of_nat k <= 6) ->
    chords (ticks n st).2
    = [(chordPads (velocities st), chordText (chordPads (velocities st)))].
Proof.
  induction k as [|k IH]; intros st p n Hwf Hclean Hp Hring Hn Hpending;
    (destruct n as [|n]; [lia|]); rewrite ticks_S_eq;
    destruct (needsHandling (velocities st)) eqn:Hneeds.
  - destruct (tick_fires st Hwf Hneeds) as [Hz Hc].
    destruct (tick st) as [st1 out1]. cbn [fst snd] in *.
    destruct (ticks_at_rest n st1 Hz) as [_ Hc2].
    destruct (ticks n st1) as [st2 out2]. cbn [fst snd] in *.
    by rewrite chords_app, Hc, Hc2.
  - exfalso. apply needsHandling_not_true in Hneeds. apply Hneeds.
    exists p. split; [done|]. unfold decays_out. split; [lia|].
    change (10 * 2 ^ Z.of_nat 0) with 10 in Hring. unfold STROKE_THRESHOLD in *.
    apply Z.div_lt_upper_bound; lia.
  - destruct (tick_fires st Hwf Hneeds) as [Hz Hc].
    destruct (tick st) as [st1 out1]. cbn [fst snd] in *.
    destruct (ticks_at_rest n st1 Hz) as [_ Hc2].
    destruct (ticks n st1) as [st2 out2]. cbn [fst snd] in *.
    by rewrite chords_app, Hc, Hc2.
  - rewrite tick_quiet_waits; [|done|done|].
    2:{ destruct Hpending as [?|[? ?]]; [by left | right].
        unfold TICK_THRESHOLD. lia. }
    destruct (halve_clean (velocities st) Hwf Hclean Hneeds) as [Hclean' Hpads].
    pose proof (IH (State (halve (velocities st)) (buf st)
                          ((ticksSinceStroke st + 1) mod 256)) p n) as Hrest.
    cbn [velocities buf ticksSinceStroke] in Hrest. rewrite Hpads in Hrest.
    destruct (ticks n _) as [st2 out2]. cbn [fst snd app] in *.
    apply Hrest; try done; try lia.
    + by apply halve_length.
    + rewrite reg_halve by done.
      assert (STROKE_THRESHOLD <= reg (velocities st) p / 2) as Hlow.
      { apply needsHandling_not_true in Hneeds.
        destruct (Z.le_gt_cases STROKE_THRESHOLD (reg (velocities st) p / 2)); [done|].
        exfalso. apply Hneeds. exists p. split; [done|]. split; [lia | done]. }
      split; [done|].
      rewrite Nat2Z.inj_succ, Z.pow_succ_r in Hring by lia.
      apply Z.div_lt_upper_bound; lia.
    + destruct Hpending as [?|[Hpos Hsum]]; [by left | right].
      rewrite Z.mod_small by lia. lia.
Qed.

Section ChordOrder.

Variable rodata : list Z.

(** Two strokes on two pads while the registers are at rest, then ticks:
    if the sentence is empty, or if the softer stroke is below [10 * 2^k]
    and the counter of the sentence at most [6 - k], more than [k] ticks
    append the one chord of the two pads. *)
Lemma two_strokes_then_ticks (st : state) (i j : nat)
    (s1 k1 f1 s2 k2 f2 : Z) (k n : nat) :
  velocities st = zeros ->
  (i < j)%nat -> drums !! i = Some k1 -> drums !! j = Some k2 ->
  Z.land s1 0xf0 = MIDI_NOTE_ON -> Z.land s2 0xf0 = MIDI_NOTE_ON ->
  HIT_THRESHOLD <= f1 -> HIT_THRESHOLD <= f2 ->
  f1 < 10 * 2 ^ Z.of_nat k \/ f2 < 10 * 2 ^ Z.of_nat k ->
  (k < n)%nat ->
  buf st = ""
  \/ (0 <= ticksSinceStroke st /\ ticksSinceStroke st + Z.of_nat k <= 6) ->
  exists st' out,
    decode rodata (s1 :: k1 :: f1 :: s2 :: k2 :: f2 :: replicate n MIDI_TICK) st
    = Ok (st', out)
    /\ chords out = [([i; j], chordText [i; j])].
Proof.
  intros Hz Hij Hi Hj Hs1 Hs2 Hf1 Hf2 Hsoft Hn Hpending.
  pose proof (lookup_lt_Some _ _ _ Hj) as Hlt.
  change (length drums) with sizeof_drums in Hlt.
  rewrite decode_note by done.
  rewrite (noteOn_known rodata i k1 f1 st Hf1 Hi).
  cbn [mbind result_bind]. rewrite decode_note by done.
  rewrite (noteOn_known rodata j k2 f2 _ Hf2 Hj).
  cbn [mbind result_bind velocities buf ticksSinceStroke].
  rewrite decode_ticks, Hz.
  eexists _, _. split; [by rewrite <- surjective_pairing|].
  assert (STROKE_THRESHOLD <= f1 /\ STROKE_THRESHOLD <= f2) as [Hr1 Hr2]
    by (unfold STROKE_THRESHOLD, HIT_THRESHOLD in *; lia).
  assert (length zeros = sizeof_drums) as Hlen0 by done.
  assert (length (<[i:=f1]> zeros) = sizeof_drums) as Hlen
    by by rewrite length_insert.
  assert (wf (State (<[j:=f2]> (<[i:=f1]> zeros)) (buf st) (ticksSinceStroke st)))
    as Hwf by (unfold wf; cbn [velocities]; by rewrite length_insert).
  assert (clean (<[j:=f2]> (<[i:=f1]> zeros))) as Hclean.
  { apply clean_insert; [lia | | done].
    apply clean_insert; [lia | apply clean_zeros | done]. }
  destruct Hsoft as [Hsoft|Hsoft].
  - rewrite (ring_out_pending k _ i n); try done; try lia.
    + cbn [velocities]. by rewrite chordPads_two.
    + cbn [velocities]. rewrite !reg_insert by lia.
      rewrite decide_False by lia. rewrite decide_True by done. lia.
  - rewrite (ring_out_pending k _ j n); try done; try lia.
    + cbn [velocities]. by rewrite chordPads_two.
    + cbn [velocities]. rewrite reg_insert by lia.
      rewrite decide_True by done. lia.
Qed.

(** C7, with what the code needs for the chord to be appended: the text
    of a chord is made of the names of the pads whose register is at or
    above the stroke threshold, taken in the order of the enumeration,
    joined by commas and closed by a period; the order in which two
    note-on messages for different pads arrive does not change what the
    decode loop does next; two pads struck in either order while the
    registers are at rest leave the same state and output, with one chord
    that names the pad of the lower index first (["BD,SNARE."] for BD and
    SNARE), if the sentence is empty or the chord is appended before the
    sentence is flushed, which it is when the softer stroke is below
    [10 * 2^k] and the counter of the sentence is at most [6 - k]; and a
    chord is appended to the sentence as it is, behind what the sentence
    holds. *)
Theorem C7_chord_text_ignores_stroke_order :
  (forall vs,
     handleStroke vs sizeof_drums
     = String.concat ","
         (drumName <$> filter (fun i => STROKE_THRESHOLD <= reg vs i)
                              (seq 0 sizeof_drums))
       +:+ ".")
  /\ (forall st i j s1 k1 f1 s2 k2 f2 rest,
        i <> j -> drums !! i = Some k1 -> drums !! j = Some k2 ->
        Z.land s1 0xf0 = MIDI_NOTE_ON -> Z.land s2 0xf0 = MIDI_NOTE_ON ->
        decode rodata (s1 :: k1 :: f1 :: s2 :: k2 :: f2 :: rest) st
        = decode rodata (s2 :: k2 :: f2 :: s1 :: k1 :: f1 :: rest) st)
  /\ (forall st i j s1 k1 f1 s2 k2 f2 k n,
        velocities st = replicate sizeof_drums 0 ->
        (i < j)%nat -> drums !! i = Some k1 -> drums !! j = Some k2 ->
        Z.land s1 0xf0 = MIDI_NOTE_ON -> Z.land s2 0xf0 = MIDI_NOTE_ON ->
        HIT_THRESHOLD <= f1 -> HIT_THRESHOLD <= f2 ->
        f1 < 10 * 2 ^ Z.of_nat k \/ f2 < 10 * 2 ^ Z.of_nat k ->
        (k < n)%nat ->
        buf st = ""
        \/ (0 <= ticksSinceStroke st /\ ticksSinceStroke st + Z.of_nat k <= 6) ->
        exists st' out,
          decode rodata
            (s1 :: k1 :: f1 :: s2 :: k2 :: f2 :: replicate n MIDI_TICK) st
          = Ok (st', out)
          /\ decode rodata
               (s2 :: k2 :: f2 :: s1 :: k1 :: f1 :: replicate n MIDI_TICK) st
             = Ok (st', out)
          /\ chords out
             = [([i; j], String.concat "," [drumName i; drumName j] +:+ ".")])
  /\ (forall st s1 s2 f1 f2 k n,
        velocities st = replicate sizeof_drums 0 ->
        Z.land s1 0xf0 = MIDI_NOTE_ON -> Z.land s2 0xf0 = MIDI_NOTE_ON ->
        HIT_THRESHOLD <= f1 -> HIT_THRESHOLD <= f2 ->
        f1 < 10 * 2 ^ Z.of_nat k \/ f2 < 10 * 2 ^ Z.of_nat k ->
        (k < n)%nat ->
        buf st = ""
        \/ (0 <= ticksSinceStroke st /\ ticksSinceStroke st + Z.of_nat k <= 6) ->
        exists st' out,
          decode rodata
            (s1 :: BD :: f1 :: s2 :: SNARE :: f2 :: replicate n MIDI_TICK) st
          = Ok (st', out)
          /\ decode rodata
               (s2 :: SNARE :: f2 :: s1 :: BD :: f1 :: replicate n MIDI_TICK) st
             = Ok (st', out)
          /\ chords out = [([0%nat; 4%nat], "BD,SNARE.")])
  /\ (forall st s1 s2 f1 f2 n,
        idle st ->
        Z.land s1 0xf0 = MIDI_NOTE_ON -> Z.land s2 0xf0 = MIDI_NOTE_ON ->
        HIT_THRESHOLD <= f1 <= 255 -> HIT_THRESHOLD <= f2 <= 255 ->
        (6 <= n)%nat ->
        exists st' out,
          decode rodata
            (s1 :: BD :: f1 :: s2 :: SNARE :: f2 :: replicate n MIDI_TICK) st
          = Ok (st', out)
          /\ decode rodata
               (s2 :: SNARE :: f2 :: s1 :: BD :: f1 :: replicate n MIDI_TICK) st
             = Ok (st', out)
          /\ chords out = [([0%nat; 4%nat], "BD,SNARE.")])
  /\ (forall st,
        needsHandling (velocities st) = true ->
        buf (stroke_phase st).1
        = buf st +:+ handleStroke (velocities st) sizeof_drums).
Proof.
  assert (forall st i j s1 k1 f1 s2 k2 f2 k n,
        velocities st = replicate sizeof_drums 0 ->
        (i < j)%nat -> drums !! i = Some k1 -> drums !! j = Some k2 ->
        Z.land s1 0xf0 = MIDI_NOTE_ON -> Z.land s2 0xf0 = MIDI_NOTE_ON ->
        HIT_THRESHOLD <= f1 -> HIT_THRESHOLD <= f2 ->
        f1 < 10 * 2 ^ Z.of_nat k \/ f2 < 10 * 2 ^ Z.of_nat k ->
        (k < n)%nat ->
        buf st = ""
        \/ (0 <= ticksSinceStroke st /\ ticksSinceStroke st + Z.of_nat k <= 6) ->
        exists st' out,
          decode rodata
            (s1 :: k1 :: f1 :: s2 :: k2 :: f2 :: replicate n MIDI_TICK) st
          = Ok (st', out)
          /\ decode rodata
               (s2 :: k2 :: f2 :: s1 :: k1 :: f1 :: replicate n MIDI_TICK) st
             = Ok (st', out)
          /\ chords out
             = [([i; j], String.concat "," [drumName i; drumName j] +:+ ".")])
    as Htwo.
  { intros st i j s1 k1 f1 s2 k2 f2 k n Hz Hij Hi Hj Hs1 Hs2 Hf1 Hf2 Hsoft Hn Hpend.
    destruct (two_strokes_then_ticks st i j s1 k1 f1 s2 k2 f2 k n)
      as (st' & out & Hrun & Hc); try done.
    exists st', out. split; [done|]. split; [|done].
    rewrite (decode_strokes_commute rodata st j i s2 k2 f2 s1 k1 f1);
      [done | lia | done..]. }
  split; [|split; [|split; [|split; [|split]]]].
  - intros vs. by rewrite handleStroke_spec.
  - intros. by apply decode_strokes_commute with (i := i) (j := j).
  - apply Htwo.
  - intros st s1 s2 f1 f2 k n Hz Hs1 Hs2 Hf1 Hf2 Hsoft Hn Hpend.
    apply (Htwo st 0%nat 4%nat s1 BD f1 s2 SNARE f2 k n); try done. lia.
  - intros st s1 s2 f1 f2 n [Hz Hbuf] Hs1 Hs2 [Hf1 Hb1] [Hf2 Hb2] Hn.
    apply (Htwo st 0%nat 4%nat s1 BD f1 s2 SNARE f2 5%nat n); try done.
    + lia.
    + left. change (10 * 2 ^ Z.of_nat 5) with 320. lia.
    + by left.
  - intros st Hneeds. unfold stroke_phase. by rewrite Hneeds.
Qed.

End ChordOrder.

(** The second chord of the sentence ["BD,SNARE.BD,SNARE."]: the two
    pads are struck, in either order, one tick after the first chord. *)
Lemma C7_witness :
  exists st' out,
    decode [] (0x90 :: BD :: 16 :: 0x99 :: SNARE :: 19 :: replicate 2 MIDI_TICK)
           (State [0; 0; 0; 0; 0; 0; 0; 0; 0] "BD,SNARE." 1)
    = Ok (st', out)
    /\ decode [] (0x99 :: SNARE :: 19 :: 0x90 :: BD :: 16 :: replicate 2 MIDI_TICK)
              (State [0; 0; 0; 0; 0; 0; 0; 0; 0] "BD,SNARE." 1)
       = Ok (st', out)
    /\ chords out = [([0%nat; 4%nat], "BD,SNARE.")].
Proof.
  apply (proj1 (proj2 (proj2 (proj2 (C7_chord_text_ignores_stroke_order []))))
           (State [0; 0; 0; 0; 0; 0; 0; 0; 0] "BD,SNARE." 1)
           0x90 0x99 16 19 1%nat 2%nat).
  - reflexivity.
  - reflexivity.
  - reflexivity.
  - unfold HIT_THRESHOLD. lia.
  - unfold HIT_THRESHOLD. lia.
  - left. cbn. lia.
  - lia.
  - right. cbn. lia.
Defined.

(** C7 as stated fails: with the registers at rest but the sentence
    ["RIDE."] four ticks old (the state the input of a RIDE stroke and
    four ticks leads to), BD and SNARE struck with force 127 are still
    ringing when the sentence is flushed; the flush clears the registers
    and no chord is ever appended for the two strokes. *)
Lemma C7_counterexample :
  main [] [0; 0; 0; 0; 0; 0; 0; 0; 0]
       [0x90; RIDE; 16; MIDI_TICK; MIDI_TICK; MIDI_TICK; MIDI_TICK]
  = Ok (State [0; 0; 0; 0; 0; 0; 0; 0; 0] "RIDE." 3, [Chord [6%nat] "RIDE."])
  /\ decode [] ([0x90; BD; 127; 0x90; SNARE; 127] ++ replicate 20 MIDI_TICK)
            (State [0; 0; 0; 0; 0; 0; 0; 0; 0] "RIDE." 3)
     = Ok (State [0; 0; 0; 0; 0; 0; 0; 0; 0] "" 16,
           [XKey true XK_a 0; XKey false XK_a 0])
  /\ ~ (forall (st : state) (f1 f2 : Z) (n : nat),
          velocities st = replicate sizeof_drums 0 ->
          HIT_THRESHOLD <= f1 <= 255 -> HIT_THRESHOLD <= f2 <= 255 ->
          (6 <= n)%nat ->
          exists st' out,
            decode [] ([0x90; BD; f1; 0x90; SNARE; f2] ++ replicate n MIDI_TICK) st
            = Ok (st', out)
            /\ chords out = [([0%nat; 4%nat], "BD,SNARE.")]).
Proof.
  split; [reflexivity|]. split; [reflexivity|].
  intros H.
  destruct (H (State [0; 0; 0; 0; 0; 0; 0; 0; 0] "RIDE." 3) 127 127 20%nat)
    as (st' & out & Hrun & Hchords).
  - reflexivity.
  - unfold HIT_THRESHOLD. lia.
  - unfold HIT_THRESHOLD. lia.
  - lia.
  - vm_compute in Hrun. injection Hrun as <- <-. discriminate Hchords.
Qed.

Lemma C10_witness :
  needsHandling [0; 0; 0; 0; 7; 0; 0; 0; 0] = true
  /\ handleStroke [0; 0; 0; 0; 7; 0; 0; 0; 0] sizeof_drums <> ".".
Proof.
  split; [reflexivity|].
  apply (C10_chord_has_a_pad (State [0; 0; 0; 0; 7; 0; 0; 0; 0] "" 0) eq_refl).
Defined.

(** ** The fixed buffers are large enough

    [strokeBuf] and [buf] are arrays of 1024 characters that the source
    fills with [strcat] without a check.  The text of a chord has at most
    52 characters, and a sentence is flushed before it can take an eighth
    chord, so neither array is ever written past its end, and the strings
    of the model stand for them. *)

Lemma length_append (s1 s2 : string) :
  String.length (s1 +:+ s2) = (String.length s1 + String.length s2)%nat.
Proof.
  induction s1 as [|c s1 IH]; [done|]. rewrite append_cons. simpl. by rewrite IH.
Qed.

Lemma length_concat_le (xs : list string) :
  (String.length (String.concat "," xs)
   <= sum_list_with (fun x => S (String.length x)) xs)%nat.
Proof.
  induction xs as [|x xs IH]; [done|].
  rewrite concat_cons. cbn [sum_list_with].
  destruct xs as [|y ys]; [lia|].
  rewrite !length_append. change (String.length ",") with 1%nat. lia.
Qed.

Lemma sum_list_with_filter {A} (f : A -> nat) (P : A -> Prop)
    `{!forall x, Decision (P x)} (l : list A) :
  (sum_list_with f (filter P l) <= sum_list_with f l)%nat.
Proof.
  induction l as [|x l IH]; [done|].
  rewrite filter_cons. destruct (decide (P x)); cbn [sum_list_with]; lia.
Qed.

Lemma chordText_length (vs : list Z) :
  (String.length (chordText (chordPads vs)) <= 52)%nat.
Proof.
  unfold chordText. rewrite length_append. change (String.length ".") with 1%nat.
  pose proof (length_concat_le (drumName <$> chordPads vs)) as Hle.
  assert (sum_list_with (fun x => S (String.length x)) (drumName <$> chordPads vs)
          <= 51)%nat; [|lia].
  clear Hle. unfold chordPads.
  assert (forall l : list nat,
            sum_list_with (fun x => S (String.length x)) (drumName <$> l)
            = sum_list_with (fun i => S (String.length (drumName i))) l) as Hmap.
  { induction l as [|i l IH]; [done|]. cbn [fmap list_fmap sum_list_with].
    by rewrite <- IH. }
  rewrite Hmap.
  etrans; [apply sum_list_with_filter|]. vm_compute. lia.
Qed.

Lemma stroke_phase_bounded (st : state) :
  bounded st ->
  (String.length (buf (stroke_phase st).1) <= 364)%nat.
Proof.
  intros (Hwf & Hbyte & Hbuf).
  assert (String.length (buf st) <= 312)%nat as Hlen.
  { destruct Hbuf as [->|[Hticks Hlen]]; [simpl; lia | lia]. }
  destruct (needsHandling (velocities st)) eqn:Hneeds.
  - rewrite stroke_phase_fires by done. cbn [fst buf].
    rewrite length_append. pose proof (chordText_length (velocities st)). lia.
  - rewrite stroke_phase_quiet by done. cbn [fst]. lia.
Qed.

Lemma tick_bounded (st : state) : bounded st -> bounded (tick st).1.
Proof.
  intros (Hwf & Hbyte & Hbuf). unfold tick, bounded, wf.
  pose proof (chordText_length (velocities st)) as Htext.
  pose proof (Z.mod_pos_bound (ticksSinceStroke st + 1) 256) as Hmod.
  destruct (decide (buf st = "")) as [Hempty|Hne];
    destruct (needsHandling (velocities st)) eqn:Hneeds.
  - rewrite stroke_phase_fires by done. rewrite flush_phase_waits.
    + cbn [fst decay_phase velocities buf ticksSinceStroke].
      rewrite Hempty. cbn [buf_empty]. split; [by rewrite halve_zeros|].
      split; [done|]. right. change ((0 + 1) mod 256) with 1.
      split; [lia|]. change ("" +:+ ?s) with s. lia.
    + cbn [decay_phase ticksSinceStroke]. rewrite Hempty. cbn [buf_empty].
      unfold TICK_THRESHOLD. lia.
  - rewrite stroke_phase_quiet by done. rewrite flush_phase_waits.
    + cbn [fst decay_phase velocities buf ticksSinceStroke].
      split; [by apply halve_length|]. split; [lia | by left].
    + cbn [decay_phase buf]. tauto.
  - destruct Hbuf as [?|[Hticks Hlen]]; [done|].
    rewrite stroke_phase_fires by done.
    pose proof Hne as Hne'. apply buf_empty_false in Hne'.
    destruct (decide (TICK_THRESHOLD < ticksSinceStroke st)) as [Hflush|Hwait].
    + rewrite flush_phase_flushes.
      * cbn [fst velocities buf ticksSinceStroke]. split; [done|]. split; [done|].
        by left.
      * unfold wf. cbn [decay_phase velocities]. by rewrite halve_zeros.
      * cbn [decay_phase buf]. intros H. by apply append_empty_inv in H as [? _].
      * cbn [decay_phase ticksSinceStroke]. by rewrite Hne'.
    + rewrite flush_phase_waits.
      * cbn [fst decay_phase velocities buf ticksSinceStroke]. rewrite Hne'.
        unfold TICK_THRESHOLD in Hwait. rewrite Z.mod_small by lia.
        split; [by rewrite halve_zeros|]. split; [lia|]. right.
        split; [lia|]. rewrite length_append. lia.
      * cbn [decay_phase ticksSinceStroke]. rewrite Hne'. tauto.
  - destruct Hbuf as [?|[Hticks Hlen]]; [done|].
    rewrite stroke_phase_quiet by done.
    assert (wf (decay_phase st)) as Hwf2 by by apply halve_length.
    destruct (decide (TICK_THRESHOLD < ticksSinceStroke st)) as [Hflush|Hwait].
    + rewrite flush_phase_flushes by done.
      cbn [fst velocities buf ticksSinceStroke]. split; [done|]. split; [done|].
      by left.
    + rewrite flush_phase_waits by (cbn [decay_phase ticksSinceStroke]; tauto).
      cbn [fst decay_phase velocities buf ticksSinceStroke].
      unfold TICK_THRESHOLD in Hwait. rewrite Z.mod_small by lia.
      split; [done|]. split; [lia|]. right. split; lia.
Qed.

(** ** The loop up to a store outside the registers *)

Section PrefixProperties.

Variable rodata : list Z.

(** The only store the model refuses is at an offset behind the nine
    registers, for a velocity at or above the hit threshold. *)
Lemma noteOn_fault (key velocity : Z) (st : state) (offset : nat) :
  noteOn rodata key velocity st = OutOfBounds offset ->
  (sizeof_drums <= offset)%nat
  /\ HIT_THRESHOLD <= velocity
  /\ strchr (drums ++ rodata) key = Some offset.
Proof.
  unfold noteOn. destruct (Z.leb_spec HIT_THRESHOLD velocity); [|discriminate].
  destruct (strchr (drums ++ rodata) key) as [i|]; [|discriminate].
  destruct (Nat.ltb_spec i sizeof_drums); [discriminate|].
  by intros [= <-].
Qed.

(** [decode] is [decode_prefix] without the state and the output of a
    run that stores outside the registers. *)
Lemma decode_prefix_outcome (n : nat) :
  forall (input : list Z) (st : state),
    (length input <= n)%nat ->
    decode rodata input st = outcome (decode_prefix rodata input st).
Proof.
  induction n as [|n IH]; intros [|ch rest] st Hlen; try done;
    [simpl in Hlen; lia|].
  simpl in Hlen. cbn [decode decode_prefix].
  destruct (if ch =? MIDI_TICK then tick st else (st, [])) as [st1 out1].
  destruct (Z.land ch 240 =? MIDI_NOTE_ON).
  - destruct rest as [|key [|velocity rest']]; try done.
    destruct (noteOn rodata key velocity st1) as [st2|offset]; [|done].
    cbn [mbind result_bind]. rewrite (IH rest' st2) by (simpl in Hlen; lia).
    by destruct (decode_prefix rodata rest' st2) as [[st3 out3] [offset|]].
  - rewrite (IH rest st1) by lia.
    by destruct (decode_prefix rodata rest st1) as [[st3 out3] [offset|]].
Qed.

(** Where [decode_prefix] stops is where [decode] ends on the input cut
    there: the whole input, or the input up to the status byte of the
    note-on message whose key and velocity make the refused store. *)
Lemma decode_prefix_cut (n : nat) :
  forall (input : list Z) (st : state),
    (length input <= n)%nat ->
    exists pre suf,
      input = pre ++ suf
      /\ decode rodata pre st = Ok (decode_prefix rodata input st).1
      /\ match (decode_prefix rodata input st).2 with
         | None => suf = []
         | Some offset =>
             exists key velocity rest,
               suf = key :: velocity :: rest
               /\ noteOn rodata key velocity (decode_prefix rodata input st).1.1
                  = OutOfBounds offset
         end.
Proof.
  induction n as [|n IH]; intros [|ch rest] st Hlen;
    try (by exists [], []); [simpl in Hlen; lia|].
  simpl in Hlen. cbn [decode_prefix].
  destruct (if ch =? MIDI_TICK then tick st else (st, [])) as [st1 out1] eqn:Hch.
  destruct (Z.land ch 240 =? MIDI_NOTE_ON) eqn:Hnibble.
  - destruct rest as [|key [|velocity rest']].
    + exists [ch], []. split; [done|]. split; [|done].
      cbn [decode]. by rewrite Hch, Hnibble.
    + exists [ch; key], []. split; [done|]. split; [|done].
      cbn [decode]. by rewrite Hch, Hnibble.
    + destruct (noteOn rodata key velocity st1) as [st2|offset] eqn:Hnote.
      * destruct (IH rest' st2) as (pre & suf & -> & Hpre & Hsuf);
          [simpl in Hlen; lia|].
        destruct (decode_prefix rodata (pre ++ suf) st2) as [[st3 out3] fault].
        cbn [fst snd] in *.
        exists (ch :: key :: velocity :: pre), suf. split; [done|].
        split; [|done]. cbn [decode]. rewrite Hch, Hnibble, Hnote.
        cbn [mbind result_bind]. by rewrite Hpre.
      * exists [ch], (key :: velocity :: rest'). split; [done|].
        cbn [fst snd]. split; [|by exists key, velocity, rest'].
        cbn [decode]. by rewrite Hch, Hnibble.
  - destruct (IH rest st1) as (pre & suf & -> & Hpre & Hsuf); [lia|].
    destruct (decode_prefix rodata (pre ++ suf) st1) as [[st3 out3] fault].
    cbn [fst snd] in *.
    exists (ch :: pre), suf. split; [done|]. split; [|done].
    cbn [decode]. rewrite Hch, Hnibble. cbn [mbind result_bind].
    by rewrite Hpre.
Qed.

(** The loop stops early only at a store behind the nine registers. *)
Lemma decode_prefix_fault (input : list Z) (st : state) (offset : nat) :
  (decode_prefix rodata input st).2 = Some offset ->
  (sizeof_drums <= offset)%nat.
Proof.
  intros Hfault.
  destruct (decode_prefix_cut (length input) input st) as (pre & suf & _ & _ & Hsuf);
    [done|].
  rewrite Hfault in Hsuf. destruct Hsuf as (key & velocity & rest & _ & Hstore).
  by apply noteOn_fault in Hstore as [? _].
Qed.

(** A property of every run that ends holds where any run stops. *)
Lemma decode_prefix_ind (P : list Z -> state -> list event -> Prop)
    (input : list Z) (st : state) :
  (forall pre suf st' out,
     input = pre ++ suf -> decode rodata pre st = Ok (st', out) ->
     P pre st' out) ->
  exists pre suf st' out fault,
    input = pre ++ suf
    /\ decode_prefix rodata input st = (st', out, fault)
    /\ decode rodata input st = outcome (st', out, fault)
    /\ decode rodata pre st = Ok (st', out)
    /\ P pre st' out.
Proof.
  intros HP.
  destruct (decode_prefix_cut (length input) input st) as (pre & suf & Hcut & Hpre & _);
    [done|].
  pose proof (decode_prefix_outcome (length input) input st (le_n _)) as Hout.
  destruct (decode_prefix rodata input st) as [[st' out] fault].
  cbn [fst] in Hpre.
  exists pre, suf, st', out, fault. repeat split; try done.
  by apply (HP pre suf).
Qed.

End PrefixProperties.

(** With the byte 65 behind [drums], a note-on for key 65 stores at
    offset 9: the loop stops in front of it, with the chord of the RIDE
    stroke appended and the tick after the message not taken. *)
Example decode_prefix_stops_at_store :
  decode_prefix [65]
    ([0x90; RIDE; 100] ++ replicate 5 MIDI_TICK ++ [0x90; 65; 127; MIDI_TICK])
    (main_init [0; 0; 0; 0; 0; 0; 0; 0; 0])
  = (State [0; 0; 0; 0; 0; 0; 0; 0; 0] "RIDE." 1, [Chord [6%nat] "RIDE."],
     Some 9%nat).
Proof. reflexivity. Qed.

Section Buffers.

Variable rodata : list Z.

Lemma noteOn_bounded (key velocity : Z) (st st' : state) :
  bounded st -> noteOn rodata key velocity st = Ok st' -> bounded st'.
Proof.
  intros (Hwf & Hbyte & Hbuf). unfold noteOn.
  destruct (HIT_THRESHOLD <=? velocity); [|by intros [= <-]].
  destruct (strchr (drums ++ rodata) key) as [i|]; [|by intros [= <-]].
  destruct (i <? sizeof_drums)%nat; [|discriminate].
  intros [= <-]. unfold bounded, wf. cbn [velocities buf ticksSinceStroke].
  by rewrite length_insert.
Qed.

Lemma decode_bounded (n : nat) :
  forall (input : list Z) (st st' : state) (out : list event),
    (length input <= n)%nat -> bounded st ->
    decode rodata input st = Ok (st', out) -> bounded st'.
Proof.
  induction n as [|n IH]; intros [|ch rest] st st' out Hlen Hb Hrun;
    try (injection Hrun as <- _; done); [simpl in Hlen; lia|].
  cbn [decode] in Hrun.
  assert (bounded (if ch =? MIDI_TICK then tick st else (st, [])).1) as Hb1.
  { destruct (ch =? MIDI_TICK); [by apply tick_bounded | done]. }
  destruct (if ch =? MIDI_TICK then tick st else (st, [])) as [st1 out1].
  cbn [fst] in Hb1. simpl in Hlen.
  destruct (Z.land ch 240 =? MIDI_NOTE_ON).
  - destruct rest as [|key [|velocity rest']];
      try (injection Hrun as <- _; done).
    destruct (noteOn rodata key velocity st1) as [st2|] eqn:Hnote; [|discriminate].
    cbn [mbind result_bind] in Hrun.
    destruct (decode rodata rest' st2) as [[st3 out3]|] eqn:Hrest; [|discriminate].
    injection Hrun as <- _.
    apply (IH rest' st2 st3 out3); [simpl in Hlen; lia | | done].
    by apply (noteOn_bounded key velocity st1).
  - destruct (decode rodata rest st1) as [[st3 out3]|] eqn:Hrest; [|discriminate].
    injection Hrun as <- _.
    apply (IH rest st1 st3 out3); [lia | done | done].
Qed.

(** A bounded state fits the arrays: the sentence it holds, the sentence
    the next tick would build, and the chord text that tick would write
    are shorter than 1024 characters. *)
Lemma bounded_fits (st : state) :
  bounded st ->
  (String.length (buf st) < 1024)%nat
  /\ (String.length (buf (stroke_phase st).1) < 1024)%nat
  /\ (String.length (handleStroke (velocities st) sizeof_drums) < 1024)%nat.
Proof.
  intros Hb.
  pose proof (stroke_phase_bounded st Hb).
  pose proof (chordText_length (velocities st)).
  rewrite handleStroke_spec.
  destruct Hb as (_ & _ & [->|[? ?]]); simpl; repeat split; lia.
Qed.

(** Whatever [malloc] left in the nine registers and whatever the input,
    where the loop stops (at the end of the input, or in front of the
    first store outside the registers) the sentence it holds, the
    sentence the next tick would build, and the chord text that tick
    would write all fit the arrays of 1024 characters, terminator
    included. *)
Theorem buffers_never_overflow (heap input : list Z) :
  length heap = sizeof_drums ->
  exists st out fault,
    decode_prefix rodata input (main_init heap) = (st, out, fault)
    /\ main rodata heap input = outcome (st, out, fault)
    /\ (forall offset, fault = Some offset -> (sizeof_drums <= offset)%nat)
    /\ bounded st
    /\ (String.length (buf st) < 1024)%nat
    /\ (String.length (buf (stroke_phase st).1) < 1024)%nat
    /\ (String.length (handleStroke (velocities st) sizeof_drums) < 1024)%nat.
Proof.
  intros Hheap.
  destruct (decode_prefix_ind rodata (fun _ st _ => bounded st)
              input (main_init heap))
    as (pre & suf & st & out & fault & _ & Hstop & Hrun & _ & Hb).
  { intros pre suf st out _ Hpre.
    apply (decode_bounded (length pre) pre (main_init heap) st out);
      [done | | done].
    split; [done|]. split; [done | by left]. }
  exists st, out, fault. split; [done|]. split; [done|].
  split; [|split; [done | by apply bounded_fits]].
  intros offset ->.
  apply (decode_prefix_fault rodata input (main_init heap)). by rewrite Hstop.
Qed.

End Buffers.

(** ** Strokes below the hit threshold *)

Lemma ticks_idle (n : nat) (st : state) :
  idle st -> idle (ticks n st).1 /\ (ticks n st).2 = [].
Proof.
  revert st. induction n as [|n IH]; intros st [Hz Hbuf]; [done|].
  assert (wf st) as Hwf by (unfold wf; by rewrite Hz).
  cbn [ticks]. rewrite tick_quiet_idle by (done || by rewrite Hz).
  rewrite Hz, halve_zeros.
  destruct (IH (State zeros "" ((ticksSinceStroke st + 1) mod 256))) as [Hidle Hout];
    [done|].
  destruct (ticks n _) as [st2 out2]. cbn [fst snd] in *. by subst.
Qed.

Section SoftStrokes.

Variable rodata : list Z.

(** A note-on message whose velocity is below the hit threshold is read
    and dropped, whatever its key. *)
Lemma soft_stroke_is_dropped (status key velocity : Z) (rest : list Z) (st : state) :
  Z.land status 0xf0 = MIDI_NOTE_ON -> velocity < HIT_THRESHOLD ->
  decode rodata (status :: key :: velocity :: rest) st = decode rodata rest st.
Proof.
  intros Hstatus Hsoft. rewrite decode_note by done.
  by rewrite noteOn_soft.
Qed.

(** On an idle engine such a stroke, followed by any number of ticks,
    appends no chord, leaves the sentence empty and sends nothing out. *)
Lemma soft_stroke_leaves_idle (status key velocity : Z) (n : nat) (st : state) :
  Z.land status 0xf0 = MIDI_NOTE_ON -> velocity < HIT_THRESHOLD ->
  idle st ->
  exists st',
    decode rodata (status :: key :: velocity :: replicate n MIDI_TICK) st
    = Ok (st', [])
    /\ idle st'.
Proof.
  intros Hstatus Hsoft Hidle.
  rewrite soft_stroke_is_dropped, decode_ticks by done.
  destruct (ticks_idle n st Hidle) as [Hidle' Hout].
  exists (ticks n st).1. split; [|done].
  by rewrite <- Hout, <- surjective_pairing.
Qed.

End SoftStrokes.

(** ** The scenarios of the specification, from zeroed registers *)

Example scenario_single_RIDE :
  main [] [0; 0; 0; 0; 0; 0; 0; 0; 0] ([0x90; RIDE; 100] ++ replicate 12 MIDI_TICK)
  = Ok (State [0; 0; 0; 0; 0; 0; 0; 0; 0] "" 1,
        [Chord [6%nat] "RIDE."; XKey true XK_a 0; XKey false XK_a 0]).
Proof. reflexivity. Qed.

Example scenario_BD_with_SNARE :
  main [] [0; 0; 0; 0; 0; 0; 0; 0; 0]
       ([0x90; BD; 100; 0x90; SNARE; 90] ++ replicate 12 MIDI_TICK)
  = Ok (State [0; 0; 0; 0; 0; 0; 0; 0; 0] "" 1,
        [Chord [0%nat; 4%nat] "BD,SNARE."; XKey true XK_b 0; XKey false XK_b 0]).
Proof. reflexivity. Qed.

Example scenario_RIDE_twice :
  main [] [0; 0; 0; 0; 0; 0; 0; 0; 0]
       ([0x90; RIDE; 100] ++ replicate 5 MIDI_TICK
        ++ [0x90; RIDE; 30] ++ replicate 10 MIDI_TICK)
  = Ok (State [0; 0; 0; 0; 0; 0; 0; 0; 0] "" 4,
        [Chord [6%nat] "RIDE."; Chord [6%nat] "RIDE.";
         XKey true XK_A ShiftMask; XKey false XK_A ShiftMask]).
Proof. reflexivity. Qed.

Example scenario_soft_stroke :
  main [] [0; 0; 0; 0; 0; 0; 0; 0; 0] ([0x90; RIDE; 14] ++ replicate 12 MIDI_TICK)
  = Ok (State [0; 0; 0; 0; 0; 0; 0; 0; 0] "" 12, []).
Proof. reflexivity. Qed.

Example scenario_unknown_sequence :
  main [] [0; 0; 0; 0; 0; 0; 0; 0; 0]
       ([0x90; HHO; 100; 0x90; HHC; 100] ++ replicate 12 MIDI_TICK
        ++ [0x90; SNARE; 40] ++ replicate 12 MIDI_TICK)
  = Ok (State [0; 0; 0; 0; 0; 0; 0; 0; 0] "" 2,
        [Chord [1%nat; 2%nat] "HH,HH.";
         Stderr ("UNKNOWN SEQUENCE: HH,HH." +:+ newline);
         Chord [4%nat] "SNARE."; XKey true XK_e 0; XKey false XK_e 0]).
Proof. reflexivity. Qed.

(** ** What the allocator left decays

    The registers are not cleared at startup, but a tick either clears
    them or halves them, so eight ticks bring any nine bytes to rest. *)

Lemma tick_registers (st : state) :
  wf st ->
  velocities (tick st).1 = zeros
  \/ velocities (tick st).1 = halve (velocities st).
Proof.
  intros Hwf. unfold tick.
  destruct (needsHandling (velocities st)) eqn:Hneeds.
  - left. rewrite stroke_phase_fires by done.
    destruct (flush_phase _) as [st3 flushed] eqn:Hflush. cbn [fst].
    unfold flush_phase in Hflush.
    cbn [decay_phase velocities buf ticksSinceStroke] in Hflush.
    rewrite halve_zeros in Hflush.
    destruct (_ && _) in Hflush.
    + destruct (handleSentence _) in Hflush. by injection Hflush as <- _.
    + by injection Hflush as <- _.
  - rewrite stroke_phase_quiet by done.
    destruct (flush_phase _) as [st3 flushed] eqn:Hflush. cbn [fst].
    unfold flush_phase in Hflush.
    cbn [decay_phase velocities buf ticksSinceStroke] in Hflush.
    destruct (_ && _) in Hflush.
    + left. destruct (handleSentence _) in Hflush.
      injection Hflush as <- _. cbn [velocities].
      by rewrite memset0_spec by by apply halve_length.
    + right. by injection Hflush as <- _.
Qed.

Lemma registers_all_zero (vs : list Z) :
  length vs = sizeof_drums -> (forall i, reg vs i = 0) -> vs = zeros.
Proof.
  intros Hlen Hz.
  pose proof (Hz 0%nat) as H0. pose proof (Hz 1%nat) as H1.
  pose proof (Hz 2%nat) as H2. pose proof (Hz 3%nat) as H3.
  pose proof (Hz 4%nat) as H4. pose proof (Hz 5%nat) as H5.
  pose proof (Hz 6%nat) as H6. pose proof (Hz 7%nat) as H7.
  pose proof (Hz 8%nat) as H8. clear Hz.
  nine vs Hlen. cbn in *. by subst.
Qed.

Lemma registers_come_to_rest (k : nat) :
  forall st : state,
    wf st ->
    (forall i, 0 <= reg (velocities st) i < 2 ^ Z.of_nat k) ->
    velocities (ticks k st).1 = zeros.
Proof.
  induction k as [|k IH]; intros st Hwf Hsmall.
  - cbn [ticks fst]. apply registers_all_zero; [done|]. intros i.
    specialize (Hsmall i). change (2 ^ Z.of_nat 0) with 1 in Hsmall. lia.
  - cbn [ticks]. pose proof (tick_registers st Hwf) as Hregs.
    destruct (tick st) as [st1 out1]. cbn [fst] in Hregs.
    pose proof (IH st1) as Hrest.
    destruct (ticks k st1) as [st2 out2]. cbn [fst] in *.
    apply Hrest.
    + unfold wf. destruct Hregs as [-> | ->]; [done | by apply halve_length].
    + intros i. destruct Hregs as [-> | ->].
      * rewrite reg_zeros. lia.
      * rewrite reg_halve by done. specialize (Hsmall i).
        rewrite Nat2Z.inj_succ, Z.pow_succ_r in Hsmall by lia.
        split; [apply Z.div_pos; lia | apply Z.div_lt_upper_bound; lia].
Qed.

Lemma startup_registers_decay (heap : list Z) :
  length heap = sizeof_drums ->
  Forall (fun b => 0 <= b < 256) heap ->
  velocities (ticks 8 (main_init heap)).1 = zeros.
Proof.
  intros Hlen Hbytes. apply registers_come_to_rest; [done|].
  intros i. cbn [main_init velocities]. unfold reg.
  destruct (heap !! i) as [b|] eqn:Hi; [|done].
  rewrite Forall_lookup in Hbytes. by apply (Hbytes i b).
Qed.

(** * Further properties of the loop *)

(** ** What is sent out is explained by the chords *)

Lemma needsHandling_chordPads (vs : list Z) :
  needsHandling vs = true -> chordPads vs <> [].
Proof.
  intros Hneeds Hnil. apply needsHandling_spec in Hneeds as (i & Hi & Hge & _).
  assert (i ∈ chordPads vs) as Hin by by apply elem_of_chordPads.
  rewrite Hnil in Hin. by apply elem_of_nil in Hin.
Qed.

Lemma explains_app (s s1 s2 : string) (out1 out2 : list event) :
  explains s out1 s1 -> explains s1 out2 s2 -> explains s (out1 ++ out2) s2.
Proof.
  intros H1 H2. induction H1 as [s|s pads rest s' Hne _ IH|s e rest s' He _ IH
                                 |s rest s' Hne Hnone _ IH]; cbn [app].
  - done.
  - apply explains_chord; [done | by apply IH].
  - apply explains_key; [done | by apply IH].
  - apply explains_unknown; [done | done | by apply IH].
Qed.

Lemma stroke_phase_explains (st : state) :
  explains (buf st) (stroke_phase st).2 (buf (stroke_phase st).1).
Proof.
  unfold stroke_phase. destruct (needsHandling (velocities st)) eqn:Hneeds.
  - rewrite handleStroke_hit, handleStroke_spec. cbn [fst snd buf].
    apply explains_chord; [by apply needsHandling_chordPads | constructor].
  - constructor.
Qed.

Lemma flush_phase_explains (st : state) :
  explains (buf st) (flush_phase st).2 (buf (flush_phase st).1).
Proof.
  unfold flush_phase.
  destruct ((TICK_THRESHOLD <? ticksSinceStroke st) && negb (buf_empty (buf st)))
    eqn:Htest.
  - apply flush_test in Htest as [Hne _].
    pose proof (handleSentence_out (buf st)) as Hout.
    destruct (handleSentence (buf st)) as [found keys]. rewrite Hout.
    cbn [fst snd buf].
    destruct (handleSentence_scan (buf st) map) as [e|] eqn:Hscan.
    + apply explains_key; [done | constructor].
    + apply explains_unknown; [done | done | constructor].
  - constructor.
Qed.

Lemma tick_explains (st : state) :
  explains (buf st) (tick st).2 (buf (tick st).1).
Proof.
  unfold tick. pose proof (stroke_phase_explains st) as Hstroke.
  destruct (stroke_phase st) as [st1 chord]. cbn [fst snd] in Hstroke.
  pose proof (flush_phase_explains (decay_phase st1)) as Hflush.
  destruct (flush_phase (decay_phase st1)) as [st3 flushed].
  cbn [fst snd decay_phase buf] in *. by apply explains_app with (buf st1).
Qed.

Section Runs.

Variable rodata : list Z.

(** A note-on message touches neither the sentence nor the counter. *)
Lemma noteOn_frame (key velocity : Z) (st st' : state) :
  noteOn rodata key velocity st = Ok st' ->
  buf st' = buf st /\ ticksSinceStroke st' = ticksSinceStroke st.
Proof.
  unfold noteOn. destruct (HIT_THRESHOLD <=? velocity); [|by intros [= <-]].
  destruct (strchr (drums ++ rodata) key) as [i|]; [|by intros [= <-]].
  destruct (i <? sizeof_drums)%nat; [|discriminate]. by intros [= <-].
Qed.

Lemma decode_explains (n : nat) :
  forall (input : list Z) (st st' : state) (out : list event),
    (length input <= n)%nat ->
    decode rodata input st = Ok (st', out) ->
    explains (buf st) out (buf st').
Proof.
  induction n as [|n IH]; intros [|ch rest] st st' out Hlen Hrun;
    try (injection Hrun as <- <-; constructor); [simpl in Hlen; lia|].
  cbn [decode] in Hrun.
  assert (explains (buf st) (if ch =? MIDI_TICK then tick st else (st, [])).2
            (buf (if ch =? MIDI_TICK then tick st else (st, [])).1)) as H1.
  { destruct (ch =? MIDI_TICK); [apply tick_explains | constructor]. }
  destruct (if ch =? MIDI_TICK then tick st else (st, [])) as [st1 out1].
  cbn [fst snd] in H1. simpl in Hlen.
  destruct (Z.land ch 240 =? MIDI_NOTE_ON).
  - destruct rest as [|key [|velocity rest']];
      try (by injection Hrun as <- <-).
    destruct (noteOn rodata key velocity st1) as [st2|] eqn:Hnote; [|discriminate].
    cbn [mbind result_bind] in Hrun.
    destruct (decode rodata rest' st2) as [[st3 out3]|] eqn:Hrest; [|discriminate].
    injection Hrun as <- <-. cbn [fst snd].
    apply noteOn_frame in Hnote as [Hbuf _].
    apply explains_app with (buf st1); [done|]. rewrite <- Hbuf.
    apply (IH rest' st2 st3 out3); [simpl in Hlen; lia | done].
  - destruct (decode rodata rest st1) as [[st3 out3]|] eqn:Hrest; [|discriminate].
    injection Hrun as <- <-. cbn [fst snd].
    apply explains_app with (buf st1); [done|].
    apply (IH rest st1 st3 out3); [lia | done].
Qed.

(** Whatever the registers held at startup and whatever the input, the
    events the loop has put out where it stops (at the end of the input,
    or in front of the first store outside the registers) are explained
    from the empty sentence: each key sent is the entry of the table for
    the chords appended since the last flush, each diagnostic names such
    a sentence that has no entry, and the sentence left in the buffer is
    made of the chords appended since. *)
Theorem run_is_explained (heap input : list Z) :
  exists st out fault,
    decode_prefix rodata input (main_init heap) = (st, out, fault)
    /\ main rodata heap input = outcome (st, out, fault)
    /\ explains "" out (buf st).
Proof.
  destruct (decode_prefix_ind rodata (fun _ st out => explains "" out (buf st))
              input (main_init heap))
    as (pre & suf & st & out & fault & _ & Hstop & Hrun & _ & Hexplains).
  { intros pre suf st out _ Hpre.
    by apply (decode_explains (length pre) pre (main_init heap) st out). }
  by exists st, out, fault.
Qed.

Lemma no_tick_no_output_le (n : nat) :
  forall (input : list Z) (st st' : state) (out : list event),
    (length input <= n)%nat ->
    MIDI_TICK ∉ input ->
    decode rodata input st = Ok (st', out) ->
    out = [] /\ buf st' = buf st /\ ticksSinceStroke st' = ticksSinceStroke st.
Proof.
  induction n as [|n IH]; intros [|ch rest] st st' out Hlen Hnotick Hrun;
    try (by injection Hrun as <- <-); [simpl in Hlen; lia|].
  apply not_elem_of_cons in Hnotick as [Hch Hrest]. simpl in Hlen.
  cbn [decode] in Hrun.
  destruct (Z.eqb_spec ch MIDI_TICK) as [?|_]; [done|].
  destruct (Z.land ch 240 =? MIDI_NOTE_ON).
  - destruct rest as [|key [|velocity rest']];
      try (by injection Hrun as <- <-).
    destruct (noteOn rodata key velocity st) as [st2|] eqn:Hnote; [|discriminate].
    cbn [mbind result_bind] in Hrun.
    destruct (decode rodata rest' st2) as [[st3 out3]|] eqn:Hrun'; [|discriminate].
    injection Hrun as <- <-. cbn [fst snd app].
    apply noteOn_frame in Hnote as [Hbuf Hticks].
    apply not_elem_of_cons in Hrest as [_ Hrest].
    apply not_elem_of_cons in Hrest as [_ Hrest].
    destruct (IH rest' st2 st3 out3) as (-> & -> & ->); [simpl in Hlen; lia | done..|].
    done.
  - destruct (decode rodata rest st) as [[st3 out3]|] eqn:Hrun'; [|discriminate].
    injection Hrun as <- <-. cbn [fst snd app].
    by apply (IH rest st st3 out3); [lia | |].
Qed.

(** Without a tick byte in the input nothing is appended to the sentence
    and nothing is sent, whatever is struck: where the loop stops (at the
    end of the input, or in front of the first store outside the
    registers) the output is empty, and the sentence and the counter are
    as they were. *)
Theorem no_tick_no_output (input : list Z) (st : state) :
  MIDI_TICK ∉ input ->
  exists st' out fault,
    decode_prefix rodata input st = (st', out, fault)
    /\ decode rodata input st = outcome (st', out, fault)
    /\ out = []
    /\ buf st' = buf st
    /\ ticksSinceStroke st' = ticksSinceStroke st.
Proof.
  intros Hnotick.
  destruct (decode_prefix_ind rodata
              (fun _ st' out =>
                 out = [] /\ buf st' = buf st
                 /\ ticksSinceStroke st' = ticksSinceStroke st)
              input st)
    as (pre & suf & st' & out & fault & _ & Hstop & Hrun & _ & Hquiet).
  { intros pre suf st' out -> Hpre.
    apply not_elem_of_app in Hnotick as [Hnotick _].
    by apply (no_tick_no_output_le (length pre) pre st st' out). }
  by exists st', out, fault.
Qed.

(** Bytes that are neither a tick nor a note-on status are skipped one by
    one, wherever no note-on message is being read. *)
Theorem other_bytes_are_skipped (other rest : list Z) (st : state) :
  Forall (fun b => b <> MIDI_TICK /\ Z.land b 0xf0 <> MIDI_NOTE_ON) other ->
  decode rodata (other ++ rest) st = decode rodata rest st.
Proof.
  induction 1 as [|b other [Htick Hnote] _ IH]; [done|].
  cbn [app]. by rewrite decode_skip.
Qed.

(** A second stroke on a pad, at or above the hit threshold, replaces what
    the first one stored: the run goes on as if only the second had been
    played. *)
Theorem later_stroke_overwrites (p : nat) (s1 s2 key f1 f2 : Z)
    (rest : list Z) (st : state) :
  drums !! p = Some key ->
  Z.land s1 0xf0 = MIDI_NOTE_ON -> Z.land s2 0xf0 = MIDI_NOTE_ON ->
  HIT_THRESHOLD <= f2 ->
  decode rodata (s1 :: key :: f1 :: s2 :: key :: f2 :: rest) st
  = decode rodata (s2 :: key :: f2 :: rest) st.
Proof.
  intros Hp Hs1 Hs2 Hf2. rewrite (decode_note rodata s1) by done.
  rewrite (noteOn_pad rodata p key f1 st Hp). cbn [mbind result_bind].
  destruct (HIT_THRESHOLD <=? f1); [|done].
  rewrite !decode_note by done.
  rewrite !(noteOn_known rodata p key f2 _ Hf2 Hp).
  cbn [mbind result_bind velocities buf ticksSinceStroke].
  by rewrite list_insert_insert_eq.
Qed.

End Runs.

(** ** When a sentence is flushed *)

Lemma ticks_S (n : nat) (st : state) :
  ticks (S n) st
  = (let '(st1, out1) := tick st in
     let '(st2, out2) := ticks n st1 in
     (st2, out1 ++ out2)).
Proof. reflexivity. Qed.

Lemma ticks_snoc (n : nat) (st : state) :
  ticks (S n) st
  = (let '(st1, out1) := ticks n st in
     let '(st2, out2) := tick st1 in
     (st2, out1 ++ out2)).
Proof.
  revert st. induction n as [|n IH]; intros st.
  - rewrite ticks_S. cbn [ticks]. destruct (tick st) as [st1 out1].
    cbn [app]. by rewrite app_nil_r.
  - rewrite (ticks_S (S n)), (ticks_S n). destruct (tick st) as [st1 out1].
    rewrite (IH st1). destruct (ticks n st1) as [st2 out2].
    destruct (tick st2) as [st3 out3]. by rewrite app_assoc.
Qed.

(** A tick on a sentence that is not empty and whose counter is at most
    the tick threshold keeps the sentence and counts one up. *)
Lemma tick_keeps_sentence (st : state) :
  wf st -> buf st <> "" -> 0 <= ticksSinceStroke st <= TICK_THRESHOLD ->
  wf (tick st).1
  /\ buf (tick st).1 <> ""
  /\ ticksSinceStroke (tick st).1 = ticksSinceStroke st + 1
  /\ sent (tick st).2 = [].
Proof.
  intros Hwf Hne Hticks. unfold tick.
  pose proof (stroke_phase_wf st Hwf) as Hwf1.
  assert (buf (stroke_phase st).1 <> ""
          /\ ticksSinceStroke (stroke_phase st).1 = ticksSinceStroke st
          /\ sent (stroke_phase st).2 = []) as (Hne1 & Hticks1 & Hsent1).
  { destruct (needsHandling (velocities st)) eqn:Hneeds.
    - rewrite stroke_phase_fires by done. cbn [fst snd buf ticksSinceStroke].
      split; [|split; [|done]].
      + intros H. by apply append_empty_inv in H as [? _].
      + apply buf_empty_false in Hne. by rewrite Hne.
    - by rewrite stroke_phase_quiet. }
  destruct (stroke_phase st) as [st1 chord]. cbn [fst snd] in *.
  rewrite flush_phase_waits.
  - cbn [fst snd decay_phase velocities buf ticksSinceStroke].
    unfold TICK_THRESHOLD in Hticks. rewrite Hticks1, Z.mod_small by lia.
    rewrite app_nil_r. split; [by apply halve_length | done].
  - cbn [decay_phase buf ticksSinceStroke]. lia.
Qed.

(** A tick on a sentence that is not empty and whose counter is above the
    tick threshold empties it and sends what the table holds for it. *)
Lemma tick_flushes_sentence (st : state) :
  wf st -> buf st <> "" -> TICK_THRESHOLD < ticksSinceStroke st ->
  (tick st).1 = State zeros "" 0 /\ sent (tick st).2 <> [].
Proof.
  intros Hwf Hne Hticks. unfold tick.
  pose proof (stroke_phase_wf st Hwf) as Hwf1.
  pose proof (proj2 (stroke_phase_flush_test st Hwf) (conj Hne Hticks)) as [Hne1 Ht1].
  destruct (stroke_phase st) as [st1 chord] eqn:Hstroke. cbn [fst] in *.
  rewrite flush_phase_flushes; [|by apply halve_length | done | done].
  cbn [fst snd]. split; [done|].
  unfold sent. rewrite omap_app.
  destruct (handleSentence_scan _ map); cbn [omap list_omap];
    intros H; by apply app_eq_nil in H as [_ ?].
Qed.

(** A sentence whose counter stands at [6 - k] stays in the buffer for
    the next [k] ticks, during which nothing is sent, and is flushed by
    the tick after them: the seventh tick, counting the one that appended
    its first chord, whatever chords the registers that still ring append
    in between. *)
Theorem sentence_is_flushed_on_time (k : nat) :
  forall st : state,
    wf st -> buf st <> "" ->
    (k <= 5)%nat -> ticksSinceStroke st = 6 - Z.of_nat k ->
    (forall j, (j <= k)%nat ->
       buf (ticks j st).1 <> "" /\ sent (ticks j st).2 = [])
    /\ (ticks (S k) st).1 = State zeros "" 0
    /\ sent (ticks (S k) st).2 <> [].
Proof.
  induction k as [|k IH]; intros st Hwf Hne Hk Hticks.
  - split.
    + intros j Hj. assert (j = 0)%nat as -> by lia. done.
    + cbn [ticks]. destruct (tick_flushes_sentence st) as [Hst Hsent];
        [done | done | unfold TICK_THRESHOLD; lia |].
      destruct (tick st) as [st1 out1]. cbn [fst snd] in *.
      by rewrite app_nil_r.
  - destruct (tick_keeps_sentence st) as (Hwf1 & Hne1 & Hticks1 & Hsent1);
      [done | done | unfold TICK_THRESHOLD; lia |].
    destruct (tick st) as [st1 out1] eqn:Htick. cbn [fst snd] in *.
    destruct (IH st1) as (Hstay & Hflush & Hsent); [done | done | lia | lia |].
    split; [|split].
    + intros [|j] Hj; [done|]. rewrite ticks_S, Htick.
      destruct (Hstay j) as [Hb Hs]; [lia|].
      destruct (ticks j st1) as [st2 out2]. cbn [fst snd] in *.
      split; [done|]. unfold sent in *. by rewrite omap_app, Hsent1, Hs.
    + rewrite (ticks_S (S k)), Htick. by destruct (ticks (S k) st1).
    + rewrite (ticks_S (S k)), Htick.
      destruct (ticks (S k) st1) as [st2 out2]. cbn [fst snd] in *.
      unfold sent in *. by rewrite omap_app, Hsent1.
Qed.

(** ** How long a stroke rings *)

Lemma halve_insert_zeros (p : nat) (f : Z) :
  halve (<[p := f]> zeros) = <[p := f / 2]> zeros.
Proof.
  rewrite halve_spec by by rewrite length_insert.
  by rewrite list_fmap_insert.
Qed.

Lemma needsHandling_one (p : nat) (f : Z) :
  (p < sizeof_drums)%nat ->
  needsHandling (<[p := f]> zeros) = true
  <-> STROKE_THRESHOLD <= f /\ f / 2 < STROKE_THRESHOLD.
Proof.
  intros Hp. assert (length zeros = sizeof_drums) as Hlen by done.
  rewrite needsHandling_spec. unfold decays_out. split.
  - intros (i & Hi & Hge & Hlt). rewrite reg_insert in Hge, Hlt by lia.
    destruct (decide (i = p)); [done|]. rewrite reg_zeros in Hge.
    unfold STROKE_THRESHOLD in Hge. lia.
  - intros [Hge Hlt]. exists p. rewrite reg_insert by lia.
    by rewrite decide_True.
Qed.

(** A lone register that rings at [f], with [5 * 2^j <= f < 10 * 2^j],
    stays quiet for [j] ticks and is then between 5 and 9. *)
Lemma lone_stroke_quiet (j : nat) :
  forall (p : nat) (f t : Z),
    (p < sizeof_drums)%nat ->
    5 * 2 ^ Z.of_nat j <= f < 10 * 2 ^ Z.of_nat j ->
    exists f' t',
      5 <= f' < 10
      /\ ticks j (State (<[p := f]> zeros) "" t)
         = (State (<[p := f']> zeros) "" t', []).
Proof.
  induction j as [|j IH]; intros p f t Hp Hf.
  - exists f, t. change (2 ^ Z.of_nat 0) with 1 in Hf. split; [lia | done].
  - rewrite Nat2Z.inj_succ, Z.pow_succ_r in Hf by lia.
    assert (needsHandling (<[p := f]> zeros) = false) as Hquiet.
    { destruct (needsHandling _) eqn:Hneeds; [|done].
      apply needsHandling_one in Hneeds as [_ Hlt]; [|done].
      unfold STROKE_THRESHOLD in Hlt.
      assert (5 <= f / 2) by (apply Z.div_le_lower_bound; lia). lia. }
    rewrite ticks_S, tick_quiet_idle;
      [| unfold wf; cbn [velocities]; by rewrite length_insert | done | done].
    cbn [velocities ticksSinceStroke]. rewrite halve_insert_zeros.
    destruct (IH p (f / 2) ((t + 1) mod 256)) as (f' & t' & Hf' & Hrun); [done| |].
    { split; [apply Z.div_le_lower_bound; lia | apply Z.div_lt_upper_bound; lia]. }
    exists f', t'. split; [done|]. by rewrite Hrun.
Qed.

Section Latency.

Variable rodata : list Z.

(** A stroke of force [f] on an idle engine, with
    [5 * 2^j <= f < 10 * 2^j], is answered by nothing for [j] ticks, and
    the tick after them appends its chord: after two ticks for a force of
    15 to 19, after five for a force of 80 to 127.  The harder the stroke,
    the later its chord. *)
Theorem stroke_latency (st : state) (p j : nat) (status key f : Z) :
  idle st ->
  drums !! p = Some key ->
  Z.land status 0xf0 = MIDI_NOTE_ON ->
  HIT_THRESHOLD <= f ->
  5 * 2 ^ Z.of_nat j <= f < 10 * 2 ^ Z.of_nat j ->
  (exists st1,
     decode rodata (status :: key :: f :: replicate j MIDI_TICK) st = Ok (st1, [])
     /\ buf st1 = "")
  /\ (exists st2,
        decode rodata (status :: key :: f :: replicate (S j) MIDI_TICK) st
        = Ok (st2, [Chord [p] (drumName p +:+ ".")])
        /\ buf st2 = drumName p +:+ ".").
Proof.
  intros Hidle Hp Hstatus Hhit Hf.
  pose proof (lookup_lt_Some _ _ _ Hp) as Hlt.
  change (length drums) with sizeof_drums in Hlt.
  rewrite !(stroke_then_ticks rodata st p) by done.
  destruct (lone_stroke_quiet j p f (ticksSinceStroke st) Hlt Hf)
    as (f' & t' & Hf' & Hquiet).
  split.
  - eexists. rewrite Hquiet. done.
  - rewrite ticks_snoc, Hquiet.
    assert (needsHandling (<[p := f']> zeros) = true) as Hfire.
    { apply needsHandling_one; [done|]. unfold STROKE_THRESHOLD.
      split; [lia | apply Z.div_lt_upper_bound; lia]. }
    rewrite tick_fires_idle;
      [| unfold wf; cbn [velocities]; by rewrite length_insert | done | done].
    cbn [velocities]. rewrite chordPads_one by (done || (unfold STROKE_THRESHOLD; lia)).
    eexists. done.
Qed.

(** All the pads that ring when the first of them decays out end up in
    one chord: from an empty sentence and registers that are each 0 or at
    least 5, one of them at most 255, six ticks or more append exactly one
    chord, made of the pads that ring. *)
Theorem ringing_pads_make_one_chord (st : state) (p n : nat) :
  wf st -> buf st = "" -> clean (velocities st) ->
  (p < sizeof_drums)%nat ->
  STROKE_THRESHOLD <= reg (velocities st) p <= 255 ->
  (6 <= n)%nat ->
  exists st' out,
    decode rodata (replicate n MIDI_TICK) st = Ok (st', out)
    /\ chords out
       = [(chordPads (velocities st), handleStroke (velocities st) sizeof_drums)].
Proof.
  intros Hwf Hbuf Hclean Hp Hring Hn. rewrite decode_ticks.
  eexists _, _. split; [by rewrite <- surjective_pairing|].
  rewrite handleStroke_spec.
  apply (ring_out 5 st p n); try done.
  change (10 * 2 ^ Z.of_nat 5) with 320. lia.
Qed.

(** Eight ticks or more bring whatever the allocator left in the
    registers to rest. *)
Theorem startup_registers_at_rest (heap : list Z) (n : nat) :
  length heap = sizeof_drums ->
  Forall (fun b => 0 <= b < 256) heap ->
  (8 <= n)%nat ->
  exists st out,
    main rodata heap (replicate n MIDI_TICK) = Ok (st, out)
    /\ velocities st = replicate sizeof_drums 0.
Proof.
  intros Hlen Hbytes Hn. unfold main. rewrite decode_ticks.
  eexists _, _. split; [by rewrite <- surjective_pairing|].
  apply registers_come_to_rest; [done|].
  intros i. cbn [main_init velocities]. unfold reg.
  assert (2 ^ 8 <= 2 ^ Z.of_nat n) by (apply Z.pow_le_mono_r; lia).
  change (2 ^ 8) with 256 in *.
  destruct (heap !! i) as [b|] eqn:Hi; [|cbn; lia].
  rewrite Forall_lookup in Hbytes. specialize (Hbytes i b Hi). cbn. lia.
Qed.

End Latency.

(** A tick never raises a register: it leaves each one at 0 or at half
    its value. *)
Theorem tick_lowers_registers (st : state) (i : nat) :
  wf st ->
  reg (velocities (tick st).1) i = 0
  \/ reg (velocities (tick st).1) i = reg (velocities st) i / 2.
Proof.
  intros Hwf. destruct (tick_registers st Hwf) as [-> | ->].
  - left. apply reg_zeros.
  - right. by apply reg_halve.
Qed.

(** ** The empty chord *)

(** [handleStroke] returns the bare period exactly when no register of
    the nine is at or above the stroke threshold. *)
Theorem handleStroke_bare_period (vs : list Z) :
  handleStroke vs sizeof_drums = "."
  <-> forall i, (i < sizeof_drums)%nat -> reg vs i < STROKE_THRESHOLD.
Proof.
  rewrite handleStroke_spec. split.
  - intros Htext i Hi. destruct (Z.lt_ge_cases (reg vs i) STROKE_THRESHOLD); [done|].
    exfalso. assert (i ∈ chordPads vs) as Hin by by apply elem_of_chordPads.
    assert (chordPads vs <> []) as Hne.
    { intros Hnil. rewrite Hnil in Hin. by apply elem_of_nil in Hin. }
    revert Htext. unfold chordText. apply append_period_ne.
    apply concat_names_nonempty; [done|].
    apply Forall_forall. intros k Hk. by apply elem_of_chordPads in Hk as [? _].
  - intros Hlow. assert (chordPads vs = []) as ->; [|done].
    apply elem_of_nil_inv. intros i Hin.
    apply elem_of_chordPads in Hin as [Hi Hge]. specialize (Hlow i Hi). lia.
Qed.

(** ** The table against the engine *)

(** No entry of the table is hidden behind another: looking up the
    pattern of any of the 59 entries finds that entry. *)
Theorem every_pattern_finds_its_entry (i : nat) (e : mapEntry) :
  (i < 59)%nat -> map !! i = Some e ->
  handleSentence_scan (content e) map = Some e.
Proof.
  intros Hi He.
  do 59 (destruct i as [|i]; [injection He as <-; reflexivity|]).
  lia.
Qed.

Lemma pad_of_name_byte (name : string) : 0 <= pad_of_name name < 256.
Proof.
  unfold pad_of_name. destruct (list_find _ drumNames) as [[i n]|]; [|done].
  destruct (drums !! i) as [b|] eqn:Hb; [|done]. cbn.
  assert (Forall (fun b => 0 <= b < 256) drums) as Hdrums
    by (unfold drums; repeat constructor; done).
  rewrite Forall_lookup in Hdrums. by apply (Hdrums i b).
Qed.

Lemma play_bytes (s : string) : Forall (fun b => 0 <= b < 256) (play s).
Proof.
  unfold play. apply Forall_app. split; [|by apply Forall_replicate].
  apply Forall_concat, Forall_fmap, Forall_forall. intros names _.
  unfold play_chord. apply Forall_app. split; [|by repeat constructor].
  apply Forall_concat, Forall_fmap, Forall_forall. intros n _.
  repeat constructor; try done; apply pad_of_name_byte.
Qed.

Lemma patterns_played (rodata : list Z) :
  (fun e =>
     match main rodata (replicate sizeof_drums 0) (play (content e)) with
     | Ok (st, out) => Some (velocities st, buf st, sent out)
     | OutOfBounds _ => None
     end) <$> patterns
  = (fun e =>
       Some (zeros, "", [XKey true (keycode e) (modifiers e);
                         XKey false (keycode e) (modifiers e)])) <$> patterns.
Proof. vm_compute. reflexivity. Qed.

(** Every entry of the table can be played: for each of the 59 entries
    there is an input of bytes on which the loop, started with registers
    at rest, sends the press and the release of the key of that entry and
    nothing else, and ends idle. *)
Theorem every_entry_can_be_played (rodata : list Z) (i : nat) (e : mapEntry) :
  (i < 59)%nat -> map !! i = Some e ->
  exists input st out,
    Forall (fun b => 0 <= b < 256) input
    /\ main rodata (replicate sizeof_drums 0) input = Ok (st, out)
    /\ sent out = [XKey true (keycode e) (modifiers e);
                   XKey false (keycode e) (modifiers e)]
    /\ idle st.
Proof.
  intros Hi He.
  assert (patterns !! i = Some e) as Hpat by by apply patterns_lookup.
  pose proof (f_equal (fun l => l !! i) (patterns_played rodata)) as Hplayed.
  cbv beta in Hplayed. rewrite !list_lookup_fmap, Hpat in Hplayed.
  cbn [fmap option_fmap option_map] in Hplayed.
  destruct (main rodata (replicate sizeof_drums 0) (play (content e)))
    as [[st out]|] eqn:Hrun; [|discriminate].
  injection Hplayed as Hregs Hbuf Hsent.
  exists (play (content e)), st, out.
  split; [apply play_bytes|]. split; [done|]. split; [done|]. by split.
Qed.

(** ** The bytes as messages *)

Lemma note_on_status (channel : Z) :
  0 <= channel < 16 -> Z.land (MIDI_NOTE_ON + channel) 0xf0 = MIDI_NOTE_ON.
Proof.
  intros H.
  assert (channel = 0 \/ channel = 1 \/ channel = 2 \/ channel = 3
          \/ channel = 4 \/ channel = 5 \/ channel = 6 \/ channel = 7
          \/ channel = 8 \/ channel = 9 \/ channel = 10 \/ channel = 11
          \/ channel = 12 \/ channel = 13 \/ channel = 14 \/ channel = 15)
    as Hcases by lia.
  repeat (destruct Hcases as [->|Hcases]; [reflexivity|]). by subst.
Qed.

Section MessageRuns.

Variable rodata : list Z.

(** The decode loop on the bytes of a list of messages does what the
    messages say, one after the other: the tick handler for a tick, the
    note-on branch for a note-on on any of the sixteen channels, nothing
    for another byte. *)
Theorem decode_of_messages (ms : list message) (st : state) :
  Forall valid ms ->
  decode rodata (concat (encode <$> ms)) st = steps rodata ms st.
Proof.
  intros Hvalid. revert st.
  induction Hvalid as [|m ms Hm _ IH]; intros st; [done|].
  cbn [fmap list_fmap concat steps].
  destruct m as [|channel key velocity|byte]; cbn [encode app step valid] in *.
  - rewrite decode_tick, IH. cbn [mbind result_bind].
    by destruct (steps rodata ms (tick st).1).
  - rewrite decode_note by by apply note_on_status.
    destruct (noteOn rodata key velocity st) as [st2|]; [|done].
    cbn [mbind result_bind fst snd app]. rewrite IH.
    by destruct (steps rodata ms st2) as [[st3 out3]|].
  - destruct Hm as [Htick Hnote]. rewrite decode_skip by done.
    cbn [mbind result_bind fst snd app]. rewrite IH.
    by destruct (steps rodata ms st) as [[st3 out3]|].
Qed.

(** As long as every note-on message is below the hit threshold or names
    one of the nine pads, the loop stores nothing outside the register
    block, and the block stays the nine bytes it was. *)
Theorem pads_only_never_out_of_bounds (ms : list message) (st : state) :
  Forall valid ms -> Forall drops_or_hits_a_pad ms -> wf st ->
  exists st' out,
    decode rodata (concat (encode <$> ms)) st = Ok (st', out) /\ wf st'.
Proof.
  intros Hvalid Hpads. rewrite decode_of_messages by done. clear Hvalid.
  revert st. induction Hpads as [|m ms Hm _ IH]; intros st Hwf.
  - by exists st, [].
  - cbn [steps].
    assert (exists st1 out1, step rodata m st = Ok (st1, out1) /\ wf st1)
      as (st1 & out1 & -> & Hwf1).
    { destruct m as [|channel key velocity|byte]; cbn [step drops_or_hits_a_pad] in *.
      - exists (tick st).1, (tick st).2. split; [by rewrite <- surjective_pairing|].
        destruct (tick_registers st Hwf) as [Hregs|Hregs]; unfold wf; rewrite Hregs;
          [done | by apply halve_length].
      - destruct (Z.lt_ge_cases velocity HIT_THRESHOLD) as [Hsoft|Hhit].
        + rewrite noteOn_soft by done. by exists st, [].
        + destruct Hm as [?|Hkey]; [lia|].
          apply list_elem_of_lookup in Hkey as [p Hp].
          rewrite (noteOn_known rodata p key velocity st) by (done || lia).
          eexists _, _. split; [done|]. unfold wf. cbn [velocities].
          by rewrite length_insert.
      - by exists st, []. }
    cbn [mbind result_bind fst snd].
    destruct (IH st1 Hwf1) as (st' & out & -> & Hwf').
    cbn [mbind result_bind fst snd]. by eexists _, _.
Qed.

End MessageRuns.

(** ** Registers hold bytes *)

Section ByteRegisters.

Variable rodata : list Z.

(** A property of the state that the tick handler keeps, and that the
    note-on branch keeps for the keys and velocities of the input, holds
    at the end of the run. *)
Lemma decode_invariant (P : state -> Prop) (Q : Z -> Prop) :
  (forall st, P st -> P (tick st).1) ->
  (forall key velocity st st',
     Q key -> Q velocity -> P st ->
     noteOn rodata key velocity st = Ok st' -> P st') ->
  forall (n : nat) (input : list Z) (st st' : state) (out : list event),
    (length input <= n)%nat -> Forall Q input -> P st ->
    decode rodata input st = Ok (st', out) -> P st'.
Proof.
  intros Htick Hnote.
  induction n as [|n IH]; intros [|ch rest] st st' out Hlen HQ HP Hrun;
    try (by injection Hrun as <- _); [simpl in Hlen; lia|].
  apply Forall_cons in HQ as [_ HQ]. simpl in Hlen. cbn [decode] in Hrun.
  assert (P (if ch =? MIDI_TICK then tick st else (st, [])).1) as HP1.
  { destruct (ch =? MIDI_TICK); [by apply Htick | done]. }
  destruct (if ch =? MIDI_TICK then tick st else (st, [])) as [st1 out1].
  cbn [fst] in HP1.
  destruct (Z.land ch 240 =? MIDI_NOTE_ON).
  - destruct rest as [|key [|velocity rest']];
      try (by injection Hrun as <- _).
    apply Forall_cons in HQ as [Hkey HQ]. apply Forall_cons in HQ as [Hvel HQ].
    destruct (noteOn rodata key velocity st1) as [st2|] eqn:Hstore; [|discriminate].
    cbn [mbind result_bind] in Hrun.
    destruct (decode rodata rest' st2) as [[st3 out3]|] eqn:Hrest; [|discriminate].
    injection Hrun as <- _.
    apply (IH rest' st2 st3 out3); [simpl in Hlen; lia | done | | done].
    by apply (Hnote key velocity st1).
  - destruct (decode rodata rest st1) as [[st3 out3]|] eqn:Hrest; [|discriminate].
    injection Hrun as <- _.
    by apply (IH rest st1 st3 out3); [lia | | |].
Qed.

(** A state of nine registers that are bytes. *)
Lemma tick_keeps_bytes (st : state) :
  length (velocities st) = sizeof_drums
  /\ Forall (fun b => 0 <= b < 256) (velocities st) ->
  length (velocities (tick st).1) = sizeof_drums
  /\ Forall (fun b => 0 <= b < 256) (velocities (tick st).1).
Proof.
  intros [Hwf Hbytes].
  destruct (tick_registers st Hwf) as [-> | ->].
  - split; [done | by apply Forall_replicate].
  - split; [by apply halve_length|]. rewrite halve_spec by done.
    apply Forall_fmap. eapply Forall_impl; [exact Hbytes|].
    intros b Hb. cbv beta in Hb. unfold compose.
    split; [apply Z.div_pos; lia | apply Z.div_lt_upper_bound; lia].
Qed.

Lemma noteOn_keeps_bytes (key velocity : Z) (st st' : state) :
  0 <= velocity < 256 ->
  length (velocities st) = sizeof_drums
  /\ Forall (fun b => 0 <= b < 256) (velocities st) ->
  noteOn rodata key velocity st = Ok st' ->
  length (velocities st') = sizeof_drums
  /\ Forall (fun b => 0 <= b < 256) (velocities st').
Proof.
  intros Hvel [Hwf Hbytes]. unfold noteOn.
  destruct (HIT_THRESHOLD <=? velocity); [|by intros [= <-]].
  destruct (strchr (drums ++ rodata) key) as [i|]; [|by intros [= <-]].
  destruct (i <? sizeof_drums)%nat; [|discriminate].
  intros [= <-]. cbn [velocities]. split; [by rewrite length_insert|].
  by apply Forall_insert.
Qed.

(** If the nine bytes the allocator left and the bytes of the input are
    bytes, so is every register where the loop stops (at the end of the
    input, or in front of the first store outside the registers): no
    register is ever negative or above 255, and the block is still nine
    bytes long. *)
Theorem registers_stay_bytes (heap input : list Z) :
  length heap = sizeof_drums ->
  Forall (fun b => 0 <= b < 256) heap ->
  Forall (fun b => 0 <= b < 256) input ->
  exists st out fault,
    decode_prefix rodata input (main_init heap) = (st, out, fault)
    /\ main rodata heap input = outcome (st, out, fault)
    /\ length (velocities st) = sizeof_drums
    /\ Forall (fun b => 0 <= b < 256) (velocities st).
Proof.
  intros Hlen Hheap Hinput.
  destruct (decode_prefix_ind rodata
              (fun _ st _ =>
                 length (velocities st) = sizeof_drums
                 /\ Forall (fun b => 0 <= b < 256) (velocities st))
              input (main_init heap))
    as (pre & suf & st & out & fault & _ & Hstop & Hrun & _ & Hbytes).
  { intros pre suf st out -> Hpre.
    apply Forall_app in Hinput as [Hinput _].
    apply (decode_invariant
             (fun st => length (velocities st) = sizeof_drums
                        /\ Forall (fun b => 0 <= b < 256) (velocities st))
             (fun b => 0 <= b < 256))
      with (n := length pre) (input := pre) (st := main_init heap) (out := out);
      try done.
    - apply tick_keeps_bytes.
    - intros key velocity st1 st2 _ Hvel Hb. by apply noteOn_keeps_bytes. }
  by exists st, out, fault.
Qed.

End ByteRegisters.

(** ** The further properties at concrete inputs *)

(** A run that stops in front of a store outside the registers: with
    the byte 65 behind [drums], the key 65 is found at offset 9. *)
Lemma buffers_never_overflow_witness :
  exists st out fault,
    decode_prefix [65] ([0x90; RIDE; 100] ++ replicate 5 MIDI_TICK ++ [0x90; 65; 127; MIDI_TICK])
                  (main_init [0; 0; 0; 0; 0; 0; 0; 0; 0])
    = (st, out, fault)
    /\ main [65] [0; 0; 0; 0; 0; 0; 0; 0; 0]
            ([0x90; RIDE; 100] ++ replicate 5 MIDI_TICK ++ [0x90; 65; 127; MIDI_TICK])
       = outcome (st, out, fault)
    /\ (forall offset, fault = Some offset -> (sizeof_drums <= offset)%nat)
    /\ bounded st
    /\ (String.length (buf st) < 1024)%nat
    /\ (String.length (buf (stroke_phase st).1) < 1024)%nat
    /\ (String.length (handleStroke (velocities st) sizeof_drums) < 1024)%nat.
Proof.
  apply (buffers_never_overflow [65] [0; 0; 0; 0; 0; 0; 0; 0; 0]
           ([0x90; RIDE; 100] ++ replicate 5 MIDI_TICK ++ [0x90; 65; 127; MIDI_TICK])).
  reflexivity.
Defined.

Lemma startup_registers_at_rest_witness :
  exists st out,
    main [] [255; 3; 0; 0; 0; 0; 0; 0; 9] (replicate 8 MIDI_TICK) = Ok (st, out)
    /\ velocities st = replicate sizeof_drums 0.
Proof.
  apply (startup_registers_at_rest [] [255; 3; 0; 0; 0; 0; 0; 0; 9] 8).
  - reflexivity.
  - repeat constructor; lia.
  - lia.
Defined.

Lemma no_tick_no_output_witness :
  exists st' out fault,
    decode_prefix [] [0x90; RIDE; 100; 0xb0; 7]
                  (State [0; 0; 0; 0; 0; 0; 0; 0; 0] "BD." 2)
    = (st', out, fault)
    /\ decode [] [0x90; RIDE; 100; 0xb0; 7]
              (State [0; 0; 0; 0; 0; 0; 0; 0; 0] "BD." 2)
       = outcome (st', out, fault)
    /\ out = []
    /\ buf st' = buf (State [0; 0; 0; 0; 0; 0; 0; 0; 0] "BD." 2)
    /\ ticksSinceStroke st'
       = ticksSinceStroke (State [0; 0; 0; 0; 0; 0; 0; 0; 0] "BD." 2).
Proof.
  apply (no_tick_no_output [] [0x90; RIDE; 100; 0xb0; 7]
           (State [0; 0; 0; 0; 0; 0; 0; 0; 0] "BD." 2)).
  intros Hin. repeat (apply elem_of_cons in Hin as [Hin|Hin]; [discriminate Hin|]).
  by apply elem_of_nil in Hin.
Defined.

Lemma other_bytes_are_skipped_witness :
  decode [] ([0xb0; 7; 127; 0xfe] ++ [MIDI_TICK])
         (State [0; 0; 0; 0; 0; 0; 8; 0; 0] "" 0)
  = decode [] [MIDI_TICK] (State [0; 0; 0; 0; 0; 0; 8; 0; 0] "" 0).
Proof.
  apply (other_bytes_are_skipped [] [0xb0; 7; 127; 0xfe] [MIDI_TICK]).
  repeat constructor; discriminate.
Defined.

Lemma later_stroke_overwrites_witness :
  decode [] [0x99; SNARE; 120; 0x99; SNARE; 20; MIDI_TICK]
         (State [0; 0; 0; 0; 0; 0; 0; 0; 0] "" 0)
  = decode [] [0x99; SNARE; 20; MIDI_TICK]
           (State [0; 0; 0; 0; 0; 0; 0; 0; 0] "" 0).
Proof.
  apply (later_stroke_overwrites [] 4 0x99 0x99 SNARE 120 20).
  - reflexivity.
  - reflexivity.
  - reflexivity.
  - unfold HIT_THRESHOLD. lia.
Defined.

Lemma sentence_is_flushed_on_time_witness :
  (ticks 3 (State [0; 0; 0; 0; 0; 0; 0; 0; 0] "RIDE." 4)).1
  = State zeros "" 0.
Proof.
  apply (sentence_is_flushed_on_time 2
           (State [0; 0; 0; 0; 0; 0; 0; 0; 0] "RIDE." 4)).
  - reflexivity.
  - discriminate.
  - lia.
  - reflexivity.
Defined.

Lemma stroke_latency_witness :
  exists st2,
    decode [] (0x99 :: RIDE :: 100 :: replicate 5 MIDI_TICK)
           (State [0; 0; 0; 0; 0; 0; 0; 0; 0] "" 0)
    = Ok (st2, [Chord [6%nat] (drumName 6 +:+ ".")])
    /\ buf st2 = drumName 6 +:+ ".".
Proof.
  apply (stroke_latency [] (State [0; 0; 0; 0; 0; 0; 0; 0; 0] "" 0)
           6 4 0x99 RIDE 100).
  - by split.
  - reflexivity.
  - reflexivity.
  - unfold HIT_THRESHOLD. lia.
  - cbn. lia.
Defined.

Lemma ringing_pads_make_one_chord_witness :
  exists st' out,
    decode [] (replicate 6 MIDI_TICK) (State [0; 0; 0; 40; 0; 0; 0; 7; 0] "" 0)
    = Ok (st', out)
    /\ chords out
       = [(chordPads [0; 0; 0; 40; 0; 0; 0; 7; 0],
           handleStroke [0; 0; 0; 40; 0; 0; 0; 7; 0] sizeof_drums)].
Proof.
  apply (ringing_pads_make_one_chord []
           (State [0; 0; 0; 40; 0; 0; 0; 7; 0] "" 0) 3 6).
  - reflexivity.
  - reflexivity.
  - intros i. do 9 (destruct i as [|i]; [cbn; unfold STROKE_THRESHOLD; lia|]).
    left. reflexivity.
  - unfold sizeof_drums. lia.
  - cbn. unfold STROKE_THRESHOLD. lia.
  - lia.
Defined.

Lemma tick_lowers_registers_witness :
  reg (velocities (tick (State [40; 0; 0; 0; 0; 0; 0; 0; 0] "" 0)).1) 0 = 0
  \/ reg (velocities (tick (State [40; 0; 0; 0; 0; 0; 0; 0; 0] "" 0)).1) 0
     = reg [40; 0; 0; 0; 0; 0; 0; 0; 0] 0 / 2.
Proof.
  apply (tick_lowers_registers (State [40; 0; 0; 0; 0; 0; 0; 0; 0] "" 0) 0).
  reflexivity.
Defined.

Lemma every_pattern_finds_its_entry_witness :
  handleSentence_scan "BD,SNARE,RIDE." map = Some (MapEntry "BD,SNARE,RIDE." XK_Return 0).
Proof.
  apply (every_pattern_finds_its_entry 58 (MapEntry "BD,SNARE,RIDE." XK_Return 0)).
  - lia.
  - reflexivity.
Defined.

Lemma every_entry_can_be_played_witness :
  exists input st out,
    Forall (fun b => 0 <= b < 256) input
    /\ main [] (replicate sizeof_drums 0) input = Ok (st, out)
    /\ sent out = [XKey true XK_W ShiftMask; XKey false XK_W ShiftMask]
    /\ idle st.
Proof.
  apply (every_entry_can_be_played [] 45
           (MapEntry "BD,HH,RIDE.BD,HH,RIDE." XK_W ShiftMask)).
  - lia.
  - reflexivity.
Defined.

Lemma decode_of_messages_witness :
  decode [] (concat (encode <$> [NoteOn 9 RIDE 100; Tick; Other 0xfe; NoteOn 0 0 3]))
         (State [0; 0; 0; 0; 0; 0; 0; 0; 0] "" 0)
  = steps [] [NoteOn 9 RIDE 100; Tick; Other 0xfe; NoteOn 0 0 3]
          (State [0; 0; 0; 0; 0; 0; 0; 0; 0] "" 0).
Proof.
  apply (decode_of_messages [] [NoteOn 9 RIDE 100; Tick; Other 0xfe; NoteOn 0 0 3]).
  repeat constructor; cbn; try lia; discriminate.
Defined.

Lemma pads_only_never_out_of_bounds_witness :
  exists st' out,
    decode [] (concat (encode <$> [NoteOn 9 RIDE 100; Tick; Other 0xfe; NoteOn 0 0 3]))
           (State [0; 0; 0; 0; 0; 0; 0; 0; 0] "" 0)
    = Ok (st', out)
    /\ wf st'.
Proof.
  apply (pads_only_never_out_of_bounds []
           [NoteOn 9 RIDE 100; Tick; Other 0xfe; NoteOn 0 0 3]).
  - repeat constructor; cbn; try lia; discriminate.
  - apply Forall_cons. split.
    { right. do 6 apply list_elem_of_further. apply list_elem_of_here. }
    apply Forall_cons. split; [exact I|].
    apply Forall_cons. split; [exact I|].
    apply Forall_cons. split; [|constructor].
    left. unfold HIT_THRESHOLD. lia.
  - reflexivity.
Defined.

Lemma soft_stroke_leaves_idle_witness :
  exists st',
    decode [] (0x90 :: 0 :: 14 :: replicate 3 MIDI_TICK)
           (State [0; 0; 0; 0; 0; 0; 0; 0; 0] "" 0)
    = Ok (st', [])
    /\ idle st'.
Proof.
  apply (soft_stroke_leaves_idle [] 0x90 0 14 3).
  - reflexivity.
  - unfold HIT_THRESHOLD. lia.
  - by split.
Defined.

Lemma registers_stay_bytes_witness :
  exists st out fault,
    decode_prefix [] [0x90; RIDE; 100; MIDI_TICK; MIDI_TICK]
                  (main_init [255; 3; 0; 0; 0; 0; 100; 0; 9])
    = (st, out, fault)
    /\ main [] [255; 3; 0; 0; 0; 0; 100; 0; 9]
            [0x90; RIDE; 100; MIDI_TICK; MIDI_TICK]
       = outcome (st, out, fault)
    /\ length (velocities st) = sizeof_drums
    /\ Forall (fun b => 0 <= b < 256) (velocities st).
Proof.
  apply (registers_stay_bytes [] [255; 3; 0; 0; 0; 0; 100; 0; 9]
           [0x90; RIDE; 100; MIDI_TICK; MIDI_TICK]).
  - reflexivity.
  - repeat (apply Forall_cons; split; [lia|]). done.
  - unfold RIDE, MIDI_TICK.
    repeat (apply Forall_cons; split; [lia|]). done.
Defined.
